(** * SST core: activity queues and the partition barrier (Sync)

    A shallow embedding of
      - [sst/core/timeVortex.h]        (class TimeVortex, declaration only),
      - [sst/core/pollingLinkQueue.cc] (class PollingLinkQueue),
      - [sst/core/sync.cc]             (class Sync),
    followed by the properties proved about them.

    Conventions.  [SimTime_t] is [uint64_t]: times are [Z] and every
    arithmetic result is reduced with [wrap64].  A [std::multiset] is the
    list of its elements in iteration order; a [std::map] is the list of its
    bindings in iteration order (ascending keys).  Heap objects reached
    through pointers ([SyncQueue*], [std::vector<Activity*>*]) live in an
    address-indexed store, so that two pointers to one object alias.  Calls
    that leave the translated files (the MPI communicator, [Link] methods,
    [printf]) are recorded, in program order, in a trace of effects; a run
    ends with a value and a world, or stopped by [abort]. *)

From Stdlib Require Import ZArith List Bool Lia String Permutation Sorted.
Import ListNotations.
Local Open Scope Z_scope.

(* ===================================================================== *)
(** * Part I.  Definitions                                                 *)
(* ===================================================================== *)

(** ** Machine integers *)

Definition SimTime_t := Z.
Definition LinkId_t := Z.

(** Reduction of an arithmetic result to [uint64_t]. *)
Definition wrap64 (x : Z) : Z := x mod 2 ^ 64.

(** ** std::map<Z, V> as the list of its bindings, ascending by key *)

Module StdMap.

Definition t (V : Type) := list (Z * V).

Definition empty {V} : t V := [].

(** [m.find(k)]; [None] stands for [m.end()]. *)
Fixpoint find {V} (k : Z) (m : t V) : option V :=
  match m with
  | [] => None
  | (k', v) :: r => if k =? k' then Some v else find k r
  end.

(** [m.count(k)] *)
Definition count {V} (k : Z) (m : t V) : Z :=
  match find k m with Some _ => 1 | None => 0 end.

(** [m[k] = v] *)
Fixpoint insert {V} (k : Z) (v : V) (m : t V) : t V :=
  match m with
  | [] => [(k, v)]
  | (k', v') :: r =>
      if k <? k' then (k, v) :: m
      else if k =? k' then (k, v) :: r
      else (k', v') :: insert k v r
  end.

(** Reading [m[k]]: the bound value, or the value-initialised [d] that
    [operator[]] would bind. *)
Definition get {V} (k : Z) (m : t V) (d : V) : V :=
  match find k m with Some v => v | None => d end.

Definition size {V} (m : t V) : Z := Z.of_nat (List.length m).

Definition keys {V} (m : t V) : list Z := map fst m.

(** The representation invariant: keys strictly ascending. *)
Definition ordered {V} (m : t V) : Prop := StronglySorted Z.lt (keys m).

End StdMap.

(** ** Activities *)

Inductive ActivityKind := EventKind | LinkInitDataKind | ActionKind.

(** Modelled from the spec: class [Activity] ([sst/core/activity.h]) is not
    among the sources.  Its attributes are the spec's [delivery_time],
    [priority] (lower value first) and [sequence] (the monotonically
    assigned tiebreaker), the [link_id] and opaque payload an Event carries,
    and the dynamic type that [dynamic_cast] inspects. *)
Record Activity := mkActivity {
  delivery_time : SimTime_t;
  priority : Z;
  sequence : Z;
  kind : ActivityKind;
  link_id : LinkId_t;
  payload : Z
}.

Definition setDeliveryTime (t : SimTime_t) (a : Activity) : Activity :=
  mkActivity t (priority a) (sequence a) (kind a) (link_id a) (payload a).

Definition setPriority (p : Z) (a : Activity) : Activity :=
  mkActivity (delivery_time a) p (sequence a) (kind a) (link_id a) (payload a).

Definition setLinkId (i : LinkId_t) (a : Activity) : Activity :=
  mkActivity (delivery_time a) (priority a) (sequence a) (kind a) i (payload a).

(** Modelled from the spec: the comparator [Activity::less_time] named by
    pollingLinkQueue.cc is declared in the missing activity.h; the spec
    orders a PollingLinkQueue "by delivery-time only". *)
Definition less_time (lhs rhs : Activity) : bool :=
  delivery_time lhs <? delivery_time rhs.

(** Modelled from the spec: the comparator [Activity::less_time_priority]
    named by timeVortex.h is declared in the missing activity.h; the spec
    orders the TimeVortex lexicographically by
    (delivery_time, priority, sequence). *)
Definition less_time_priority (lhs rhs : Activity) : bool :=
  if delivery_time lhs =? delivery_time rhs then
    if priority lhs =? priority rhs then sequence lhs <? sequence rhs
    else priority lhs <? priority rhs
  else delivery_time lhs <? delivery_time rhs.

(** ** std::multiset<T, Compare> as the list of its elements in order *)

Module StdMultiset.
Section WithCompare.

Context {T : Type} (less : T -> T -> bool).

(** [data.insert(x)]: the new element goes to the upper bound of the
    range of elements equivalent to it, that is, in front of the first
    element it is strictly less than. *)
Fixpoint insert (x : T) (data : list T) : list T :=
  match data with
  | [] => [x]
  | y :: r => if less x y then x :: y :: r else y :: insert x r
  end.

(** [data.size()] *)
Definition size (data : list T) : Z := Z.of_nat (List.length data).

(** [*data.begin()] on a non-empty multiset *)
Definition first (data : list T) : option T := hd_error data.

(** [data.erase(data.begin())] *)
Definition erase_first (data : list T) : list T := tl data.

(** Iteration order never puts an element after one it is less than. *)
Definition in_order (data : list T) : Prop :=
  StronglySorted (fun x y => less y x = false) data.

End WithCompare.
End StdMultiset.

(** ** The ActivityQueue interface *)

(** Modelled from the spec: the abstract class [ActivityQueue]
    ([sst/core/activityQueue.h]) is not among the sources; its operations
    are those both queue classes below override.  [pop] returns the
    Activity handed out ([None] for [NULL]) and the queue it leaves. *)
Class ActivityQueue (Q : Type) := {
  empty : Q -> bool;
  size : Q -> Z;
  insert : Activity -> Q -> Q;
  pop : Q -> option Activity * Q;
  front : Q -> option Activity
}.

(** ** PollingLinkQueue (pollingLinkQueue.cc) *)

Module PollingLinkQueue.

(** [std::multiset<Activity*,Activity::less_time> data] *)
Record t := mk { data : list Activity }.

(** [PollingLinkQueue::PollingLinkQueue()] *)
Definition new : t := mk [].

Definition empty (q : t) : bool :=
  match data q with [] => true | _ :: _ => false end.

Definition size (q : t) : Z := StdMultiset.size (data q).

Definition insert (activity : Activity) (q : t) : t :=
  mk (StdMultiset.insert less_time activity (data q)).

Definition pop (q : t) : option Activity * t :=
  if StdMultiset.size (data q) =? 0 then (None, q)
  else (StdMultiset.first (data q), mk (StdMultiset.erase_first (data q))).

Definition front (q : t) : option Activity :=
  if StdMultiset.size (data q) =? 0 then None
  else StdMultiset.first (data q).

End PollingLinkQueue.

#[global] Instance PollingLinkQueue_ActivityQueue : ActivityQueue PollingLinkQueue.t := {
  empty := PollingLinkQueue.empty;
  size := PollingLinkQueue.size;
  insert := PollingLinkQueue.insert;
  pop := PollingLinkQueue.pop;
  front := PollingLinkQueue.front
}.

(** ** TimeVortex (timeVortex.h) *)

Module TimeVortex.

(** [std::multiset<Activity*,Activity::less_time_priority> data]
    (timeVortex.h, the only member). *)
Record t := mk { data : list Activity }.

Definition new : t := mk [].

(** Modelled from the spec: the bodies of [TimeVortex::empty], [size],
    [insert], [pop] and [front] (timeVortex.cc) are not among the sources.
    Following the spec's ActivityQueue contract over the declared
    multiset: [insert] adds to the multiset, [pop] removes and returns the
    minimum by the queue's ordering, [front] returns it without removing,
    and both return nothing when the queue is empty. *)
Definition empty (q : t) : bool :=
  match data q with [] => true | _ :: _ => false end.

(** Modelled from the spec: [TimeVortex::size], the number of resident
    Activities (body missing). *)
Definition size (q : t) : Z := StdMultiset.size (data q).

(** Modelled from the spec: [TimeVortex::insert] adds the Activity to the
    declared multiset (body missing). *)
Definition insert (activity : Activity) (q : t) : t :=
  mk (StdMultiset.insert less_time_priority activity (data q)).

(** Modelled from the spec: [TimeVortex::pop] removes and returns the
    minimum by the queue's ordering, nothing when empty (body missing). *)
Definition pop (q : t) : option Activity * t :=
  match data q with
  | [] => (None, q)
  | x :: r => (Some x, mk r)
  end.

(** Modelled from the spec: [TimeVortex::front] returns the minimum
    without removing it, nothing when empty (body missing). *)
Definition front (q : t) : option Activity :=
  match data q with
  | [] => None
  | x :: _ => Some x
  end.

End TimeVortex.

#[global] Instance TimeVortex_ActivityQueue : ActivityQueue TimeVortex.t := {
  empty := TimeVortex.empty;
  size := TimeVortex.size;
  insert := TimeVortex.insert;
  pop := TimeVortex.pop;
  front := TimeVortex.front
}.

(** ** Driving a queue through a sequence of calls *)

Inductive queue_call := CallInsert (a : Activity) | CallPop.

(** A queue together with the record of what went in and what came out. *)
Record driven (Q : Type) := mkDriven {
  queue : Q;
  inserted : list Activity;
  popped : list Activity
}.
Arguments mkDriven {Q} _ _ _.
Arguments queue {Q} _.
Arguments inserted {Q} _.
Arguments popped {Q} _.

Definition drive_call {Q} `{ActivityQueue Q} (s : driven Q) (c : queue_call) : driven Q :=
  match c with
  | CallInsert a => mkDriven (insert a (queue s)) (inserted s ++ [a]) (popped s)
  | CallPop =>
      match pop (queue s) with
      | (Some x, q') => mkDriven q' (inserted s) (popped s ++ [x])
      | (None, q') => mkDriven q' (inserted s) (popped s)
      end
  end.

Definition drive {Q} `{ActivityQueue Q} (q0 : Q) (calls : list queue_call) : driven Q :=
  fold_left drive_call calls (mkDriven q0 [] []).

(** Activities of one delivery time; of one delivery time and priority. *)
Definition at_time (t : SimTime_t) (a : Activity) : bool :=
  delivery_time a =? t.






(** ** The world Sync runs in *)

(** [TimeConverter] (not among the sources): only [getFactor()] is used. *)
Record TimeConverter := mkTimeConverter { getFactor : SimTime_t }.

(** [boost::mpi::communicator], identified by its handle. *)
Inductive Communicator := MPI_Comm (handle : Z).

(** What a default-constructed communicator wraps. *)
Definition MPI_COMM_WORLD : Communicator := MPI_Comm 0.

(** A [Link*]; class Link is not among the sources, so a link is known by
    its address and its methods are external calls. *)
Definition LinkPtr := Z.

(** Addresses of heap objects; [NULL] is 0. *)
Definition addr := Z.
Definition NULL : addr := 0.

(** A request handed back by [isend] / [irecv]. *)
Inductive request :=
| SendRequest (dest tag : Z)
| RecvRequest (source tag : Z) (buf : addr).

(** One item written to a Boost archive. *)
Inductive archived :=
| ArBaseAction (a : Activity)
| ArPeriod (p : TimeConverter)
| ArCommMap (m : list (Z * (list Activity * list Activity)))
| ArLinkMap (m : list (LinkId_t * LinkPtr)).

(** Calls that leave sync.cc, and the heap operations it performs. *)
Inductive effect :=
| Isend (c : Communicator) (dest tag : Z) (value : list Activity)
| Irecv (c : Communicator) (source tag : Z) (buf : addr)
| WaitAll (reqs : list request)
| NewSyncQueue (q : addr)
| NewVector (v : addr)
| QueueClear (q : addr)
| VectorClear (v : addr)
| LinkSend (link : LinkPtr) (delay : SimTime_t) (ev : Activity)
| LinkSendInitData (link : LinkPtr) (lid : Activity)
| LinkMoveInitDataToRecvQueue (link : LinkPtr)
| InsertActivity (time : SimTime_t) (a : Activity)
| Printf (fmt : string) (args : list Z)
| Archive (name : string) (item : archived).

(** Modelled from the spec: class [Simulation] is not among the sources.
    It holds the current simulation cycle and the partition's TimeVortex. *)
Record Simulation := mkSimulation {
  currentSimCycle : SimTime_t;
  timeVortex : TimeVortex.t
}.

(** The members of class Sync; [base] is its [Action] base sub-object. *)
Record Sync := mkSync {
  period : TimeConverter;
  comm_map : StdMap.t (addr * addr);
  link_map : StdMap.t LinkPtr;
  comm : Communicator;
  base : Activity
}.

(** [queues] holds the SyncQueue objects and [vectors] the receive buffers,
    by address; [next_addr] is the next address [new] hands out. *)
Record World := mkWorld {
  this : Sync;
  queues : StdMap.t (list Activity);
  vectors : StdMap.t (list Activity);
  next_addr : addr;
  sim : Simulation
}.

(** What the rest of the system does during a call: the vector each peer
    rank sends at the exchange, and what [Link::moveInitDataToRecvQueue]
    does to the SyncQueues it can reach. *)
Record Environment := mkEnvironment {
  incoming : Z -> list Activity;
  moveInitData : LinkPtr -> StdMap.t (list Activity) -> StdMap.t (list Activity)
}.

(** ** A monad for traced, stateful, abortable code *)

Inductive stop := Aborted | NullDereference.

Inductive result (A : Type) :=
| Ok (a : A) (w : World)
| Stopped (why : stop).
Arguments Ok {A} _ _.
Arguments Stopped {A} _.

Definition M (A : Type) := World -> list effect * result A.

Definition ret {A} (a : A) : M A := fun w => ([], Ok a w).

Definition bind {A B} (m : M A) (f : A -> M B) : M B :=
  fun w =>
    match m w with
    | (t1, Ok a w') => let (t2, r) := f a w' in (t1 ++ t2, r)
    | (t1, Stopped why) => (t1, Stopped why)
    end.

Declare Scope sync_scope.
Delimit Scope sync_scope with sync.
Notation "x <- m ;; k" := (bind m (fun x => k))
  (at level 61, m at next level, right associativity) : sync_scope.
Notation "m ;; k" := (bind m (fun _ => k))
  (at level 61, right associativity) : sync_scope.
Local Open Scope sync_scope.

Definition emit (e : effect) : M unit := fun w => ([e], Ok tt w).
Definition get : M World := fun w => ([], Ok w w).
Definition put (w : World) : M unit := fun _ => ([], Ok tt w).
Definition stop_with {A} (why : stop) : M A := fun _ => ([], Stopped why).

(** A [for] loop over a container. *)
Fixpoint forM_ {X} (l : list X) (body : X -> M unit) : M unit :=
  match l with
  | [] => ret tt
  | x :: r => body x ;; forM_ r body
  end.

(** A [for] loop that grows a local accumulator. *)
Fixpoint foldM {X S} (body : S -> X -> M S) (acc : S) (l : list X) : M S :=
  match l with
  | [] => ret acc
  | x :: r => acc' <- body acc x ;; foldM body acc' r
  end.

(** Field updates. *)
Definition set_this (s : Sync) (w : World) : World :=
  mkWorld s (queues w) (vectors w) (next_addr w) (sim w).
Definition set_queues (q : StdMap.t (list Activity)) (w : World) : World :=
  mkWorld (this w) q (vectors w) (next_addr w) (sim w).
Definition set_vectors (v : StdMap.t (list Activity)) (w : World) : World :=
  mkWorld (this w) (queues w) v (next_addr w) (sim w).
Definition set_next_addr (n : addr) (w : World) : World :=
  mkWorld (this w) (queues w) (vectors w) n (sim w).
Definition set_sim (s : Simulation) (w : World) : World :=
  mkWorld (this w) (queues w) (vectors w) (next_addr w) s.

Definition set_period (p : TimeConverter) (s : Sync) : Sync :=
  mkSync p (comm_map s) (link_map s) (comm s) (base s).
Definition set_comm_map (m : StdMap.t (addr * addr)) (s : Sync) : Sync :=
  mkSync (period s) m (link_map s) (comm s) (base s).
Definition set_link_map (m : StdMap.t LinkPtr) (s : Sync) : Sync :=
  mkSync (period s) (comm_map s) m (comm s) (base s).
Definition set_comm (c : Communicator) (s : Sync) : Sync :=
  mkSync (period s) (comm_map s) (link_map s) c (base s).
Definition set_base (a : Activity) (s : Sync) : Sync :=
  mkSync (period s) (comm_map s) (link_map s) (comm s) a.

Definition modify (f : World -> World) : M unit := fun w => ([], Ok tt (f w)).

(** ** Operations on heap objects and external calls *)

(** [new SyncQueue()] *)
Definition new_SyncQueue : M addr :=
  w <- get ;;
  let q := next_addr w in
  put (set_next_addr (q + 1) (set_queues (StdMap.insert q [] (queues w)) w)) ;;
  emit (NewSyncQueue q) ;;
  ret q.

(** [new std::vector<Activity*>] *)
Definition new_vector : M addr :=
  w <- get ;;
  let v := next_addr w in
  put (set_next_addr (v + 1) (set_vectors (StdMap.insert v [] (vectors w)) w)) ;;
  emit (NewVector v) ;;
  ret v.

(** Modelled from the spec: class [SyncQueue] is not among the sources.
    It is the sequence of Activities buffered for one peer rank, with
    [getVector()] yielding that sequence and [clear()] emptying it. *)
Definition SyncQueue_getVector (q : addr) : M (list Activity) :=
  w <- get ;; ret (StdMap.get q (queues w) []).

(** Modelled from the spec: [SyncQueue::clear()] (class not among the
    sources) empties the buffered sequence. *)
Definition SyncQueue_clear (q : addr) : M unit :=
  emit (QueueClear q) ;;
  modify (fun w => set_queues (StdMap.insert q [] (queues w)) w).

(** Reading [*tmp] and [tmp->clear()] on a receive buffer. *)
Definition vector_contents (v : addr) : M (list Activity) :=
  w <- get ;; ret (StdMap.get v (vectors w) []).

Definition vector_clear (v : addr) : M unit :=
  emit (VectorClear v) ;;
  modify (fun w => set_vectors (StdMap.insert v [] (vectors w)) w).

(** [comm.isend(dest, tag, value)] and [comm.irecv(source, tag, buf)] *)
Definition comm_isend (c : Communicator) (dest tag : Z) (value : list Activity) : M request :=
  emit (Isend c dest tag value) ;; ret (SendRequest dest tag).

Definition comm_irecv (c : Communicator) (source tag : Z) (buf : addr) : M request :=
  emit (Irecv c source tag buf) ;; ret (RecvRequest source tag buf).

(** Completing one request: a receive leaves the peer's vector in its
    buffer, a send leaves the local state alone. *)
Definition complete (env : Environment) (r : request) (w : World) : World :=
  match r with
  | SendRequest _ _ => w
  | RecvRequest source _ buf =>
      set_vectors (StdMap.insert buf (incoming env source) (vectors w)) w
  end.

(** [boost::mpi::wait_all(first, last)] *)
Definition wait_all (env : Environment) (reqs : list request) : M unit :=
  emit (WaitAll reqs) ;;
  modify (fun w => fold_left (fun w r => complete env r w) reqs w).

Definition printf (fmt : string) (args : list Z) : M unit := emit (Printf fmt args).

Definition abort {A} : M A := stop_with Aborted.

(** External [Link] methods. *)
Definition Link_Send (link : LinkPtr) (delay : SimTime_t) (ev : Activity) : M unit :=
  emit (LinkSend link delay ev).

Definition Link_sendInitData (link : LinkPtr) (lid : Activity) : M unit :=
  emit (LinkSendInitData link lid).

Definition Link_moveInitDataToRecvQueue (env : Environment) (link : LinkPtr) : M unit :=
  emit (LinkMoveInitDataToRecvQueue link) ;;
  modify (fun w => set_queues (moveInitData env link (queues w)) w).

(** [sim->getCurrentSimCycle()] *)
Definition getCurrentSimCycle : M SimTime_t :=
  w <- get ;; ret (currentSimCycle (sim w)).

(** Modelled from the spec: [Simulation::insertActivity(time, this)] is not
    among the sources.  It stamps the delivery time on the Activity (here
    the Sync itself) and inserts it into the partition's TimeVortex. *)
Definition insertActivity_this (time : SimTime_t) : M unit :=
  w <- get ;;
  let a := setDeliveryTime time (base (this w)) in
  emit (InsertActivity time a) ;;
  put (set_sim (mkSimulation (currentSimCycle (sim w))
                             (TimeVortex.insert a (timeVortex (sim w))))
               (set_this (set_base a (this w)) w)).

(** [dynamic_cast<LinkInitData*>(p)]: the object, or [NULL]. *)
Definition dynamic_cast_LinkInitData (a : Activity) : option Activity :=
  match kind a with
  | LinkInitDataKind => Some a
  | _ => None
  end.

Definition modify_this (f : Sync -> Sync) : M unit :=
  modify (fun w => set_this (f (this w)) w).

(** ** class Sync (sync.cc) *)

(** [Sync::Sync(TimeConverter* period) : Action()]; [action] is the base
    sub-object as [Action()] leaves it. *)
Definition Sync_new (action : Activity) (period : TimeConverter) : M unit :=
  modify (set_this (mkSync period StdMap.empty StdMap.empty MPI_COMM_WORLD action)) ;;
  cycle <- getCurrentSimCycle ;;
  let next := wrap64 (cycle + getFactor period) in
  modify_this (fun s => set_base (setPriority 25 (base s)) s) ;;
  insertActivity_this next.

(** [SyncQueue* Sync::registerLink(int rank, LinkId_t link_id, Link* link)] *)
Definition registerLink (rank : Z) (link_id : LinkId_t) (link : LinkPtr) : M addr :=
  w <- get ;;
  queue <-
    (if StdMap.count rank (comm_map (this w)) =? 0 then
       q <- new_SyncQueue ;;
       modify_this (fun s =>
         set_comm_map
           (StdMap.insert rank (q, snd (StdMap.get rank (comm_map s) (NULL, NULL)))
                          (comm_map s)) s) ;;
       v <- new_vector ;;
       modify_this (fun s =>
         set_comm_map
           (StdMap.insert rank (fst (StdMap.get rank (comm_map s) (NULL, NULL)), v)
                          (comm_map s)) s) ;;
       ret q
     else
       ret (fst (StdMap.get rank (comm_map (this w)) (NULL, NULL)))) ;;
  modify_this (fun s => set_link_map (StdMap.insert link_id link (link_map s)) s) ;;
  ret queue.

(** The body of the loop both [execute] and [exchangeLinkInitData] open
    with: post the send of one rank's SyncQueue and the receive into its
    buffer, and remember the two requests. *)
Definition post_one (c : Communicator) (pending_requests : list request)
           (i : Z * (addr * addr)) : M (list request) :=
  let '(rank, (q, v)) := i in
  value <- SyncQueue_getVector q ;;
  s <- comm_isend c rank 0 value ;;
  r <- comm_irecv c rank 0 v ;;
  ret (pending_requests ++ [s; r]).

Definition post_exchange : M (list request) :=
  w <- get ;;
  foldM (post_one (comm (this w))) [] (comm_map (this w)).

(** The body of the loop both methods close with: clear one rank's
    SyncQueue, hand every Activity received from it to [handle], clear the
    buffer. *)
Definition receive_one (handle : Activity -> M unit) (i : Z * (addr * addr)) : M unit :=
  let '(_, (q, v)) := i in
  SyncQueue_clear q ;;
  tmp <- vector_contents v ;;
  forM_ tmp handle ;;
  vector_clear v.

Definition for_each_received (handle : Activity -> M unit) : M unit :=
  w <- get ;;
  forM_ (comm_map (this w)) (receive_one handle).

(** The body of [execute]'s inner loop. *)
Definition deliver_event (current_cycle : SimTime_t) (ev : Activity) : M unit :=
  w <- get ;;
  match StdMap.find (link_id ev) (link_map (this w)) with
  | None => printf "Link not found in map!\n" [] ;; abort
  | Some link =>
      let delay := wrap64 (delivery_time ev - current_cycle) in
      Link_Send link delay ev
  end.

(** [void Sync::execute(void)] *)
Definition execute (env : Environment) : M unit :=
  pending_requests <- post_exchange ;;
  wait_all env pending_requests ;;
  current_cycle <- getCurrentSimCycle ;;
  for_each_received (deliver_event current_cycle) ;;
  w <- get ;;
  cycle <- getCurrentSimCycle ;;
  let next := wrap64 (cycle + getFactor (period (this w))) in
  insertActivity_this next.

(** The body of [exchangeLinkInitData]'s inner loop. *)
Definition deliver_init_data (j : Activity) : M unit :=
  match dynamic_cast_LinkInitData j with
  | None => stop_with NullDereference
  | Some lid =>
      w <- get ;;
      match StdMap.find (link_id lid) (link_map (this w)) with
      | None => printf "Link not found in map!\n" [] ;; abort
      | Some link => Link_sendInitData link (setLinkId (-1) lid)
      end
  end.

(** [void Sync::exchangeLinkInitData()] *)
Definition exchangeLinkInitData (env : Environment) : M unit :=
  w <- get ;;
  forM_ (link_map (this w))
        (fun i => Link_moveInitDataToRecvQueue env (snd i)) ;;
  pending_requests <- post_exchange ;;
  wait_all env pending_requests ;;
  for_each_received deliver_init_data.

(** ** Sync::serialize *)

(** What an archive holds of one Sync: the four items [Sync::serialize]
    names, in its order.  A pointer is archived as the object it leads to,
    so the rank map carries each rank's SyncQueue and buffer contents. *)
Record SyncImage := mkSyncImage {
  image_Action : Activity;
  image_period : TimeConverter;
  image_comm_map : list (Z * (list Activity * list Activity));
  image_link_map : list (LinkId_t * LinkPtr)
}.

(** The two archives the template is instantiated for: an output archive,
    which records what it is given, and an input archive positioned at a
    Sync. *)
Inductive archive :=
| oarchive
| iarchive (input : SyncImage).

(** What a saved rank map carries: each rank with the objects its two
    pointers lead to. *)
Definition comm_map_contents (w : World) : list (Z * (list Activity * list Activity)) :=
  map (fun i : Z * (addr * addr) =>
         let '(rank, (q, v)) := i in
         (rank, (StdMap.get q (queues w) [], StdMap.get v (vectors w) [])))
      (comm_map (this w)).

(** [m.insert(std::make_pair(k, v))]: binds [k] unless it is bound. *)
Definition StdMap_insert_pair {V} (k : Z) (v : V) (m : StdMap.t V) : StdMap.t V :=
  match StdMap.find k m with
  | Some _ => m
  | None => StdMap.insert k v m
  end.

(** [ar & BOOST_SERIALIZATION_BASE_OBJECT_NVP(Action)] *)
Definition ar_Action (ar : archive) : M unit :=
  match ar with
  | oarchive => w <- get ;; emit (Archive "Action" (ArBaseAction (base (this w))))
  | iarchive input => modify_this (set_base (image_Action input))
  end.

(** [ar & BOOST_SERIALIZATION_NVP(period)] *)
Definition ar_period (ar : archive) : M unit :=
  match ar with
  | oarchive => w <- get ;; emit (Archive "period" (ArPeriod (period (this w))))
  | iarchive input => modify_this (set_period (image_period input))
  end.

(** Loading one binding of the rank map: a new SyncQueue and a new buffer
    are made and filled, and the rank is bound to them. *)
Definition load_rank (i : Z * (list Activity * list Activity)) : M unit :=
  q <- new_SyncQueue ;;
  modify (fun w => set_queues (StdMap.insert q (fst (snd i)) (queues w)) w) ;;
  v <- new_vector ;;
  modify (fun w => set_vectors (StdMap.insert v (snd (snd i)) (vectors w)) w) ;;
  modify_this (fun s => set_comm_map (StdMap_insert_pair (fst i) (q, v) (comm_map s)) s).

(** [ar & BOOST_SERIALIZATION_NVP(comm_map)]; loading clears the map and
    binds the archived ranks in the archive's order. *)
Definition ar_comm_map (ar : archive) : M unit :=
  match ar with
  | oarchive => w <- get ;; emit (Archive "comm_map" (ArCommMap (comm_map_contents w)))
  | iarchive input =>
      modify_this (set_comm_map StdMap.empty) ;;
      forM_ (image_comm_map input) load_rank
  end.

(** [ar & BOOST_SERIALIZATION_NVP(link_map)]; a loaded link is known by
    the handle it was saved under. *)
Definition ar_link_map (ar : archive) : M unit :=
  match ar with
  | oarchive => w <- get ;; emit (Archive "link_map" (ArLinkMap (link_map (this w))))
  | iarchive input =>
      modify_this (set_link_map StdMap.empty) ;;
      forM_ (image_link_map input)
            (fun i => modify_this (fun s =>
               set_link_map (StdMap_insert_pair (fst i) (snd i) (link_map s)) s))
  end.

(** [template<class Archive> void Sync::serialize(Archive& ar, unsigned)]:
    one body for saving and for loading.  [comm] is not named in it. *)
Definition serialize (ar : archive) : M unit :=
  printf "begin Sync::serialize\n" [] ;;
  ar_Action ar ;;
  printf "  - Sync::period\n" [] ;;
  ar_period ar ;;
  w <- get ;;
  printf "  - Sync::comm_map (%d)\n" [StdMap.size (comm_map (this w))] ;;
  ar_comm_map ar ;;
  w <- get ;;
  printf "  - Sync::link_map (%d)\n" [StdMap.size (link_map (this w))] ;;
  ar_link_map ar ;;
  printf "end Sync::serialize\n" [].

(** ** Reading runs and traces *)

Definition trace_of {A} (r : list effect * result A) : list effect := fst r.
Definition outcome_of {A} (r : list effect * result A) : result A := snd r.

Definition returned {A} (r : list effect * result A) : option A :=
  match snd r with Ok a _ => Some a | Stopped _ => None end.


(** The [Link::Send] calls of a trace, in order. *)
Definition link_sends (tr : list effect) : list (LinkPtr * SimTime_t * Activity) :=
  flat_map (fun e => match e with LinkSend l d ev => [(l, d, ev)] | _ => [] end) tr.

(** The [Link::sendInitData] calls of a trace, in order. *)
Definition init_data_sends (tr : list effect) : list (LinkPtr * Activity) :=
  flat_map (fun e => match e with LinkSendInitData l a => [(l, a)] | _ => [] end) tr.

(** What an archive received, in order. *)
Definition archive_of (tr : list effect) : list (string * archived) :=
  flat_map (fun e => match e with Archive n i => [(n, i)] | _ => [] end) tr.

(** Reading back what an output archive received from [Sync::serialize]. *)
Definition image_of (items : list (string * archived)) : option SyncImage :=
  match items with
  | [(_, ArBaseAction a); (_, ArPeriod p); (_, ArCommMap c); (_, ArLinkMap l)] =>
      Some (mkSyncImage a p c l)
  | _ => None
  end.

(** The bindings the loop loading a rank map adds when [n] is the next
    free address: each archived rank with its new SyncQueue and buffer. *)
Fixpoint loaded_ranks (n : addr) (l : list (Z * (list Activity * list Activity)))
  : list (Z * (addr * addr)) :=
  match l with
  | [] => []
  | i :: r => (fst i, (n, n + 1)) :: loaded_ranks (n + 2) r
  end.

(** The SyncQueue and the buffer each rank of [w] is bound to, by content. *)
Definition rank_contents (w : World) : list (Z * (list Activity * list Activity)) :=
  map (fun i : Z * (addr * addr) =>
         (fst i, (StdMap.get (fst (snd i)) (queues w) [],
                  StdMap.get (snd (snd i)) (vectors w) [])))
      (comm_map (this w)).

(** The Activities the peers hand over at an exchange, in the order the
    closing loop meets them. *)
Definition received (env : Environment) (w : World) : list Activity :=
  flat_map (fun i : Z * (addr * addr) => incoming env (fst i)) (comm_map (this w)).

Definition link_known (w : World) (ev : Activity) : bool :=
  match StdMap.find (link_id ev) (link_map (this w)) with
  | Some _ => true
  | None => false
  end.

(** The [Link::Send] call [execute] makes for a received event. *)
Definition send_call (w : World) (ev : Activity) : LinkPtr * SimTime_t * Activity :=
  (StdMap.get (link_id ev) (link_map (this w)) NULL,
   wrap64 (delivery_time ev - currentSimCycle (sim w)),
   ev).

(** The [Link::sendInitData] call [exchangeLinkInitData] makes. *)
Definition init_data_call (w : World) (lid : Activity) : LinkPtr * Activity :=
  (StdMap.get (link_id lid) (link_map (this w)) NULL, setLinkId (-1) lid).

(** The receive buffers of distinct ranks are distinct objects. *)
Definition buffers_distinct (w : World) : Prop :=
  NoDup (map (fun i : Z * (addr * addr) => snd (snd i)) (comm_map (this w))).

(** The invariant [registerLink] maintains: one SyncQueue and one buffer
    per rank, no object shared, every address already handed out, and the
    ranks in ascending order. *)
Definition wf (w : World) : Prop :=
  NoDup (map (fun i : Z * (addr * addr) => fst (snd i)) (comm_map (this w)))
  /\ buffers_distinct w
  /\ Forall (fun i : Z * (addr * addr) =>
               fst (snd i) < next_addr w /\ snd (snd i) < next_addr w)
            (comm_map (this w))
  /\ StdMap.ordered (comm_map (this w)).

(** A sequence of [registerLink] calls, collecting the queues returned. *)
Fixpoint registerLinks (calls : list (Z * LinkId_t * LinkPtr)) : M (list addr) :=
  match calls with
  | [] => ret []
  | (rank, link_id, link) :: rest =>
      q <- registerLink rank link_id link ;;
      qs <- registerLinks rest ;;
      ret (q :: qs)
  end.

(** The steps of [execute], as its trace should show them. *)
Definition posted (w : World) : list effect :=
  flat_map (fun i : Z * (addr * addr) =>
              let '(rank, (q, v)) := i in
              [Isend (comm (this w)) rank 0 (StdMap.get q (queues w) []);
               Irecv (comm (this w)) rank 0 v])
           (comm_map (this w)).

Definition requests_of (w : World) : list request :=
  flat_map (fun i : Z * (addr * addr) =>
              let '(rank, (_, v)) := i in
              [SendRequest rank 0; RecvRequest rank 0 v])
           (comm_map (this w)).

Definition send_effect (w : World) (ev : Activity) : effect :=
  let '(l, d, e) := send_call w ev in LinkSend l d e.


(** The longest prefix of a list whose members all pass a test, and the
    first member that fails it. *)
Fixpoint take_while {T} (p : T -> bool) (l : list T) : list T :=
  match l with
  | [] => []
  | x :: r => if p x then x :: take_while p r else []
  end.

Definition first_bad {T} (p : T -> bool) (l : list T) : option T :=
  List.find (fun x => negb (p x)) l.

(** The world once every request of the exchange has completed. *)
Definition completed (env : Environment) (w : World) : World :=
  fold_left (fun w r => complete env r w) (requests_of w) w.

(** The world once the closing loop has been through the ranks [ranks]. *)
Definition cleared (ranks : list (Z * (addr * addr))) (w : World) : World :=
  fold_left (fun w (i : Z * (addr * addr)) =>
               set_vectors (StdMap.insert (snd (snd i)) [] (vectors w))
                           (set_queues (StdMap.insert (fst (snd i)) [] (queues w)) w))
            ranks w.

(** The trace of the closing loop over [ranks], for a handler that on an
    Activity passing [ok] makes the call [out] and on any other stops after
    the effects [bad] names: the loop runs up to the first Activity that
    fails [ok]. *)
Fixpoint receive_trace (env : Environment) (ok : Activity -> bool)
         (out : Activity -> effect) (bad : Activity -> list effect * stop)
         (ranks : list (Z * (addr * addr))) : list effect :=
  match ranks with
  | [] => []
  | (rank, (q, v)) :: rest =>
      QueueClear q :: map out (take_while ok (incoming env rank))
        ++ match first_bad ok (incoming env rank) with
           | Some e => fst (bad e)
           | None => VectorClear v :: receive_trace env ok out bad rest
           end
  end.

(** The diagnostic of a failed link lookup. *)
Definition link_not_found : list effect := [Printf "Link not found in map!\n" []].

(** What stops [exchangeLinkInitData] at a received item, if anything. *)
Definition init_data_known (w : World) (j : Activity) : bool :=
  match kind j with
  | LinkInitDataKind => link_known w j
  | _ => false
  end.

Definition init_data_failure (j : Activity) : list effect * stop :=
  match kind j with
  | LinkInitDataKind => (link_not_found, Aborted)
  | _ => ([], NullDereference)
  end.

Definition init_data_effect (w : World) (lid : Activity) : effect :=
  let '(l, a) := init_data_call w lid in LinkSendInitData l a.

Definition next_barrier (w : World) : SimTime_t :=
  wrap64 (currentSimCycle (sim w) + getFactor (period (this w))).

(** The Sync as [execute] re-inserts it. *)
Definition rescheduled (w : World) : Activity :=
  setDeliveryTime (next_barrier w) (base (this w)).

(** The world a completed [execute] leaves. *)
Definition after_execute (env : Environment) (w : World) : World :=
  let w' := cleared (comm_map (this w)) (completed env w) in
  mkWorld (set_base (rescheduled w) (this w))
          (queues w') (vectors w') (next_addr w)
          (mkSimulation (currentSimCycle (sim w))
                        (TimeVortex.insert (rescheduled w) (timeVortex (sim w)))).

(** The handler of [execute], described: the call it makes for a known
    link, and how it stops otherwise. *)
Definition execute_failure (ev : Activity) : list effect * stop :=
  (link_not_found, Aborted).




(** The world once every link has moved its init data to the SyncQueues. *)
Definition moved (env : Environment) (w : World) : World :=
  fold_left (fun w (i : LinkId_t * LinkPtr) =>
               set_queues (moveInitData env (snd i) (queues w)) w)
            (link_map (this w)) w.

(** ** The claims of the spec that the code does not meet, as stated *)


(** ** Concrete inputs *)

(** Spec scenario 2: at t=10, three events of priorities 5, 2, 2, stamped
    in insertion order. *)
Definition event_p5 : Activity := mkActivity 10 5 0 EventKind 1 100.
Definition event_p2_first : Activity := mkActivity 10 2 1 EventKind 1 101.
Definition event_p2_second : Activity := mkActivity 10 2 2 EventKind 1 102.
Definition scenario2 : list Activity := [event_p5; event_p2_first; event_p2_second].


(** A Sync of period 4 running its barrier at cycle 4. *)
Definition barrier_action : Activity := mkActivity 4 25 0 ActionKind 0 0.


(** Two peers (ranks 0 and 1), two links (ids 7 and 8). *)
Definition two_peers : World :=
  mkWorld (mkSync (mkTimeConverter 4) [(0, (3, 4)); (1, (1, 2))]
                  [(7, 100); (8, 200)] MPI_COMM_WORLD barrier_action)
          [(1, []); (3, [])] [(2, []); (4, [])] 5
          (mkSimulation 4 TimeVortex.new).

Definition quiet_links (l : LinkPtr) (q : StdMap.t (list Activity)) := q.

(** Rank 1 sends one event for link 7 whose delivery time, 3, is past. *)
Definition late_event : Activity := mkActivity 3 0 0 EventKind 7 0.
Definition env_late : Environment :=
  mkEnvironment (fun rank => if rank =? 1 then [late_event] else []) quiet_links.

(** Rank 0 sends an event for link 8 and rank 1 one for link 7. *)
Definition event_from_0 : Activity := mkActivity 6 0 0 EventKind 8 0.
Definition event_from_1 : Activity := mkActivity 7 0 1 EventKind 7 0.
Definition env_both : Environment :=
  mkEnvironment (fun rank => if rank =? 0 then [event_from_0]
                             else if rank =? 1 then [event_from_1] else [])
                quiet_links.

(** Rank 0 sends an event for link 8, then one for the unknown link 99. *)
Definition stray_event : Activity := mkActivity 9 0 2 EventKind 99 0.
Definition env_stray : Environment :=
  mkEnvironment (fun rank => if rank =? 0 then [event_from_0; stray_event]
                             else if rank =? 1 then [event_from_1] else [])
                quiet_links.

(** Init data: rank 0 sends an item for link 8, rank 1 one for link 7. *)
Definition init_from_0 : Activity := mkActivity 0 0 0 LinkInitDataKind 8 11.
Definition init_from_1 : Activity := mkActivity 0 0 1 LinkInitDataKind 7 12.
Definition env_init : Environment :=
  mkEnvironment (fun rank => if rank =? 0 then [init_from_0]
                             else if rank =? 1 then [init_from_1] else [])
                quiet_links.

(** A partition before its Sync exists, at cycle 0. *)
Definition before_sync : World :=
  mkWorld (mkSync (mkTimeConverter 0) [] [] MPI_COMM_WORLD barrier_action)
          [] [] 1 (mkSimulation 0 TimeVortex.new).

(** A Sync over communicator 7 at a checkpoint, with an Activity buffered
    for rank 0 and one received from rank 1; it is restored into
    [before_sync], which holds the default communicator. *)
Definition checkpointed : World :=
  mkWorld (mkSync (mkTimeConverter 4) [(0, (3, 4)); (1, (1, 2))]
                  [(7, 100); (8, 200)] (MPI_Comm 7) barrier_action)
          [(1, []); (3, [event_from_0])] [(2, [event_from_1]); (4, [])] 5
          (mkSimulation 4 TimeVortex.new).

(** ** The destructors *)

(** [m.erase(k)] on a std::map. *)
Fixpoint StdMap_erase {V} (k : Z) (m : StdMap.t V) : StdMap.t V :=
  match m with
  | [] => []
  | (k', v) :: r => if k =? k' then r else (k', v) :: StdMap_erase k r
  end.

(** [PollingLinkQueue::~PollingLinkQueue()]: delete every Activity left in
    the queue, in iteration order, then clear the multiset.  Returns the
    Activities deleted and the queue left. *)
Definition PollingLinkQueue_delete (q : PollingLinkQueue.t)
  : list Activity * PollingLinkQueue.t :=
  (fold_left (fun deleted it => deleted ++ [it]) (PollingLinkQueue.data q) [],
   PollingLinkQueue.mk []).

(** What a destructor hands to [delete]. *)
Inductive deleted :=
| DeletedSyncQueue (q : addr)
| DeletedVector (v : addr)
| DeletedLink (l : LinkPtr).

(** One step of the first loop of [Sync::~Sync]: the rank's SyncQueue and
    its buffer leave the heap. *)
Definition delete_rank (w : World) (i : Z * (addr * addr)) : World :=
  set_vectors (StdMap_erase (snd (snd i)) (vectors w))
              (set_queues (StdMap_erase (fst (snd i)) (queues w)) w).

(** [Sync::~Sync()]: delete both objects of every rank and clear the rank
    map, then delete every link and clear the link map.  Returns the
    deletions in program order and the world left. *)
Definition Sync_delete (w : World) : list deleted * World :=
  let d1 := flat_map (fun i : Z * (addr * addr) =>
                        [DeletedSyncQueue (fst (snd i)); DeletedVector (snd (snd i))])
                     (comm_map (this w)) in
  let w1 := fold_left delete_rank (comm_map (this w)) w in
  let w2 := set_this (set_comm_map StdMap.empty (this w1)) w1 in
  let d2 := map (fun i : LinkId_t * LinkPtr => DeletedLink (snd i))
                (link_map (this w2)) in
  (d1 ++ d2, set_this (set_link_map StdMap.empty (this w2)) w2).

Definition deleted_queues (d : list deleted) : list addr :=
  flat_map (fun x => match x with DeletedSyncQueue q => [q] | _ => [] end) d.

Definition deleted_vectors (d : list deleted) : list addr :=
  flat_map (fun x => match x with DeletedVector v => [v] | _ => [] end) d.

Definition deleted_links (d : list deleted) : list LinkPtr :=
  flat_map (fun x => match x with DeletedLink l => [l] | _ => [] end) d.

(** ** Reading more of a trace *)

(** The peers a trace posts a send to, and those it posts a receive from,
    in order. *)
Definition isend_ranks (tr : list effect) : list Z :=
  flat_map (fun e => match e with Isend _ dest _ _ => [dest] | _ => [] end) tr.

Definition irecv_ranks (tr : list effect) : list Z :=
  flat_map (fun e => match e with Irecv _ source _ _ => [source] | _ => [] end) tr.

(** The vectors a trace sends, in order. *)
Definition isend_values (tr : list effect) : list (list Activity) :=
  flat_map (fun e => match e with Isend _ _ _ value => [value] | _ => [] end) tr.

(** What a trace prints, in order. *)
Definition printed (tr : list effect) : list (string * list Z) :=
  flat_map (fun e => match e with Printf fmt args => [(fmt, args)] | _ => [] end) tr.

(** Init data gone wrong: after its item for link 8, rank 0 sends an
    ordinary event. *)
Definition env_init_wrong : Environment :=
  mkEnvironment (fun rank => if rank =? 0 then [init_from_0; event_from_0]
                             else if rank =? 1 then [init_from_1] else [])
                quiet_links.

(** Two peers with one event queued for rank 0. *)
Definition outbound : Activity := mkActivity 12 0 3 EventKind 8 0.
Definition two_peers_busy : World :=
  mkWorld (mkSync (mkTimeConverter 4) [(0, (3, 4)); (1, (1, 2))]
                  [(7, 100); (8, 200)] MPI_COMM_WORLD barrier_action)
          [(1, []); (3, [outbound])] [(2, []); (4, [])] 5
          (mkSimulation 4 TimeVortex.new).

(** The link a sequence of [registerLink] calls leaves bound to [id]: that
    of the last call naming [id], if any. *)
Fixpoint last_binding (id : LinkId_t) (calls : list (Z * LinkId_t * LinkPtr))
  : option LinkPtr :=
  match calls with
  | [] => None
  | (_, link_id, link) :: rest =>
      match last_binding id rest with
      | Some l => Some l
      | None => if id =? link_id then Some link else None
      end
  end.

(** ** SimpleMem::Request (interfaces/simpleMem.h) *)

Module SimpleMem.

(** [typedef uint64_t Addr; typedef uint64_t id_t; typedef uint32_t flags_t] *)
Definition Addr := Z.
Definition id_t := Z.
Definition flags_t := Z.

Inductive Command := Read | Write | ReadResp | WriteResp.

(** [typedef std::vector<uint8_t> dataVec] *)
Definition dataVec := list Byte.byte.

Record Request := mkRequest {
  cmd : Command;
  addr : Addr;
  size : Z;
  data : dataVec;
  flags : flags_t;
  id : id_t
}.

(** [Request(Command, Addr, size_t, dataVec&, flags_t)]: the payload is
    copied, the id is [main_id++].  Returns the Request and the new value
    of the static counter [main_id]. *)
Definition Request_with_data (cmd : Command) (addr : Addr) (size : Z)
           (data : dataVec) (flags : flags_t) (main_id : id_t) : Request * id_t :=
  (mkRequest cmd addr size data flags main_id, wrap64 (main_id + 1)).

(** [Request(Command, Addr, size_t, flags_t)]: the payload is left empty. *)
Definition Request_without_data (cmd : Command) (addr : Addr) (size : Z)
           (flags : flags_t) (main_id : id_t) : Request * id_t :=
  (mkRequest cmd addr size [] flags main_id, wrap64 (main_id + 1)).

(** [void setPayload(const std::vector<uint8_t>& data_in)] *)
Definition setPayload (data_in : dataVec) (r : Request) : Request :=
  mkRequest (cmd r) (addr r) (size r) data_in (flags r) (id r).

(** [data.resize(len)]: truncate, or pad with zero bytes. *)
Definition resize (len : nat) (v : dataVec) : dataVec :=
  firstn len v ++ repeat Byte.x00 (len - List.length v).

(** [data[i] = x] for [i] within the vector. *)
Fixpoint assign (i : nat) (x : Byte.byte) (v : dataVec) : dataVec :=
  match v, i with
  | [], _ => []
  | _ :: r, O => x :: r
  | y :: r, S i' => y :: assign i' x r
  end.

(** [for (i = from; i < from + todo; i++) data[i] = data_in[i];] with
    [data_in] the memory the pointer leads to, byte by byte. *)
Fixpoint copy_loop (data_in : nat -> Byte.byte) (i todo : nat) (v : dataVec) : dataVec :=
  match todo with
  | O => v
  | S todo' => copy_loop data_in (S i) todo' (assign i (data_in i) v)
  end.

(** [void setPayload(uint8_t* data_in, size_t len)] *)
Definition setPayload_ptr (data_in : nat -> Byte.byte) (len : nat) (r : Request) : Request :=
  mkRequest (cmd r) (addr r) (size r)
            (copy_loop data_in 0 len (resize len (data r)))
            (flags r) (id r).

(** One construction: with a payload or without. *)
Inductive construction :=
| WithData (cmd : Command) (addr : Addr) (size : Z) (data : dataVec) (flags : flags_t)
| WithoutData (cmd : Command) (addr : Addr) (size : Z) (flags : flags_t).

Definition construct (c : construction) (main_id : id_t) : Request * id_t :=
  match c with
  | WithData cmd addr size data flags => Request_with_data cmd addr size data flags main_id
  | WithoutData cmd addr size flags => Request_without_data cmd addr size flags main_id
  end.

(** A run of constructions, threading the static counter. *)
Fixpoint construct_all (cs : list construction) (main_id : id_t) : list Request * id_t :=
  match cs with
  | [] => ([], main_id)
  | c :: rest =>
      let (r, next) := construct c main_id in
      let (rs, final) := construct_all rest next in
      (r :: rs, final)
  end.

End SimpleMem.

(* ===================================================================== *)
(** * Part II.  Properties                                                 *)
(* ===================================================================== *)

(** ** Lists *)

Lemma StronglySorted_snoc_inv {T} (R : T -> T -> Prop) (l : list T) (a : T) :
  StronglySorted R (l ++ [a]) ->
  StronglySorted R l /\ Forall (fun x => R x a) l.
Proof.
  induction l as [|x l IH]; simpl; intros H.
  - split; constructor.
  - apply StronglySorted_inv in H. destruct H as [Hs Hf].
    destruct (IH Hs) as [Hl Ha].
    apply Forall_app in Hf. destruct Hf as [Hfl Hfa].
    split.
    + constructor; assumption.
    + constructor; [now inversion Hfa | assumption].
Qed.

(** ** std::multiset *)

Section MultisetFacts.

Context {T : Type} (less : T -> T -> bool).

(** [less] is a strict weak ordering, as the container requires. *)
Hypothesis less_irrefl : forall x, less x x = false.
Hypothesis less_trans :
  forall x y z, less x y = true -> less y z = true -> less x z = true.
Hypothesis less_incomparable :
  forall x y z, less x y = false -> less y z = false -> less x z = false.

Lemma less_asym x y : less x y = true -> less y x = false.
Proof.
  intros H. destruct (less y x) eqn:E; [|reflexivity].
  rewrite <- (less_irrefl x). symmetry. now apply less_trans with y.
Qed.

Lemma multiset_insert_perm a l :
  Permutation (a :: l) (StdMultiset.insert less a l).
Proof.
  induction l as [|x r IH]; simpl.
  - reflexivity.
  - destruct (less a x).
    + reflexivity.
    + rewrite perm_swap. now constructor.
Qed.

Lemma multiset_insert_In a l x :
  In x (StdMultiset.insert less a l) <-> x = a \/ In x l.
Proof.
  split; intros H.
  - apply Permutation_in with (l' := a :: l) in H.
    + destruct H; auto.
    + symmetry. apply multiset_insert_perm.
  - apply Permutation_in with (l := a :: l).
    + apply multiset_insert_perm.
    + destruct H; [left; auto | right; auto].
Qed.

Lemma multiset_insert_in_order a l :
  StdMultiset.in_order less l ->
  StdMultiset.in_order less (StdMultiset.insert less a l).
Proof.
  unfold StdMultiset.in_order.
  induction l as [|x r IH]; simpl; intros H.
  - repeat constructor.
  - apply StronglySorted_inv in H. destruct H as [Hr Hx].
    destruct (less a x) eqn:E.
    + constructor; [constructor; assumption|].
      constructor; [now apply less_asym|].
      rewrite Forall_forall in *. intros y Hy.
      destruct (less y a) eqn:Eya; [|reflexivity].
      rewrite <- (Hx y Hy). symmetry. now apply less_trans with a.
    + constructor; [auto|].
      rewrite Forall_forall in *. intros y Hy.
      apply multiset_insert_In in Hy. destruct Hy as [->|Hy]; auto.
Qed.

(** In an ordered multiset, everything behind an element that [a] is less
    than is also greater than [a]. *)
Lemma in_order_tail_greater a x r :
  StdMultiset.in_order less (x :: r) -> less a x = true ->
  forall y, In y (x :: r) -> less a y = true.
Proof.
  intros H E y [<-|Hy]; [assumption|].
  apply StronglySorted_inv in H. destruct H as [_ Hx].
  rewrite Forall_forall in Hx.
  destruct (less a y) eqn:Eay; [reflexivity|].
  rewrite <- E. symmetry.
  apply less_incomparable with y; auto.
Qed.

(** The first element is a minimum. *)
Lemma in_order_first_minimal x r :
  StdMultiset.in_order less (x :: r) ->
  forall y, In y (x :: r) -> less y x = false.
Proof.
  intros H y [<-|Hy]; [apply less_irrefl|].
  apply StronglySorted_inv in H. destruct H as [_ Hx].
  rewrite Forall_forall in Hx. auto.
Qed.

(** An element that is not less than any resident member of its class
    joins the class at its end. *)
Lemma filter_insert_same_class (tie : T -> bool) a l :
  StdMultiset.in_order less l ->
  tie a = true ->
  (forall x, In x l -> tie x = true -> less a x = false) ->
  filter tie (StdMultiset.insert less a l) = filter tie l ++ [a].
Proof.
  induction l as [|x r IH]; simpl; intros Hs Ha Hl.
  - now rewrite Ha.
  - destruct (less a x) eqn:E.
    + assert (Hnone : filter tie (x :: r) = []).
      { assert (Hall : forall y, In y (x :: r) -> tie y = false).
        { intros y Hy. destruct (tie y) eqn:Ey; [|reflexivity].
          pose proof (in_order_tail_greater a x r Hs E y Hy) as Hgt.
          pose proof (Hl y Hy Ey) as Hle. congruence. }
        clear - Hall. induction (x :: r) as [|z l' IH']; [reflexivity|].
        simpl. rewrite (Hall z (or_introl eq_refl)).
        apply IH'. intros y Hy. apply Hall. now right. }
      simpl in Hnone. simpl. rewrite Ha, Hnone. reflexivity.
    + apply StronglySorted_inv in Hs. destruct Hs as [Hr _].
      simpl. rewrite IH; auto.
      destruct (tie x); reflexivity.
Qed.

Lemma filter_insert_other_class (tie : T -> bool) a l :
  tie a = false ->
  filter tie (StdMultiset.insert less a l) = filter tie l.
Proof.
  intros Ha. induction l as [|x r IH]; simpl.
  - now rewrite Ha.
  - destruct (less a x); simpl.
    + now rewrite Ha.
    + now rewrite IH.
Qed.

End MultisetFacts.

(** ** The comparators are strict weak orderings *)

Ltac order_cases :=
  repeat match goal with
         | |- context [?a <? ?b] => destruct (Z.ltb_spec a b)
         | |- context [?a =? ?b] => destruct (Z.eqb_spec a b)
         | H : context [?a <? ?b] |- _ => destruct (Z.ltb_spec a b)
         | H : context [?a =? ?b] |- _ => destruct (Z.eqb_spec a b)
         end;
  try reflexivity; try discriminate; try lia.

Lemma less_time_irrefl x : less_time x x = false.
Proof. unfold less_time. order_cases. Qed.

Lemma less_time_trans x y z :
  less_time x y = true -> less_time y z = true -> less_time x z = true.
Proof. unfold less_time. intros. order_cases. Qed.

Lemma less_time_incomparable x y z :
  less_time x y = false -> less_time y z = false -> less_time x z = false.
Proof. unfold less_time. intros. order_cases. Qed.





(** ** Queues backed by a multiset, driven through arbitrary calls *)

Section DrivenQueue.

Context {Q : Type} {AQ : ActivityQueue Q}.
Variable contents : Q -> list Activity.
Variable less : Activity -> Activity -> bool.

Hypothesis less_irrefl : forall x, less x x = false.
Hypothesis less_trans :
  forall x y z, less x y = true -> less y z = true -> less x z = true.
Hypothesis less_incomparable :
  forall x y z, less x y = false -> less y z = false -> less x z = false.

Hypothesis insert_contents :
  forall a q, contents (insert a q) = StdMultiset.insert less a (contents q).
Hypothesis pop_contents :
  forall q,
    match contents q with
    | [] => pop q = (None, q)
    | x :: r => fst (pop q) = Some x /\ contents (snd (pop q)) = r
    end.

Lemma drive_snoc (q0 : Q) calls c :
  drive q0 (calls ++ [c]) = drive_call (drive q0 calls) c.
Proof. unfold drive. now rewrite fold_left_app. Qed.

(** One call keeps the multiset ordered and loses no Activity. *)
Lemma drive_call_invariant (s : driven Q) c :
  StdMultiset.in_order less (contents (queue s)) ->
  Permutation (inserted s) (popped s ++ contents (queue s)) ->
  StdMultiset.in_order less (contents (queue (drive_call s c)))
  /\ Permutation (inserted (drive_call s c))
                 (popped (drive_call s c) ++ contents (queue (drive_call s c))).
Proof.
  intros Hs Hp. destruct c as [a|]; simpl.
  - rewrite insert_contents. split.
    + now apply multiset_insert_in_order.
    + rewrite <- (multiset_insert_perm less a).
      apply Permutation_trans with (a :: inserted s);
        [apply Permutation_sym, Permutation_cons_append|].
      apply Permutation_trans with (a :: popped s ++ contents (queue s));
        [now constructor | apply Permutation_middle].
  - pose proof (pop_contents (queue s)) as Hpop.
    destruct (contents (queue s)) as [|x r] eqn:E.
    + rewrite Hpop. simpl. rewrite E. auto.
    + destruct (pop (queue s)) as [o q']. simpl in Hpop.
      destruct Hpop as [-> Hq']. simpl. rewrite Hq'. split.
      * now apply StronglySorted_inv in Hs.
      * now rewrite <- app_assoc.
Qed.

Lemma driven_invariant (q0 : Q) calls :
  contents q0 = [] ->
  StdMultiset.in_order less (contents (queue (drive q0 calls)))
  /\ Permutation (inserted (drive q0 calls))
                 (popped (drive q0 calls) ++ contents (queue (drive q0 calls))).
Proof.
  intros H0. induction calls as [|c calls IH] using rev_ind.
  - unfold drive. simpl. rewrite H0. split; constructor.
  - rewrite drive_snoc. destruct IH as [Hs Hp].
    now apply drive_call_invariant.
Qed.

(** Whatever [pop] hands out is a minimum of what is resident. *)
Lemma driven_pop_minimal (q0 : Q) calls x q' :
  contents q0 = [] ->
  pop (queue (drive q0 calls)) = (Some x, q') ->
  contents (queue (drive q0 calls)) = x :: contents q'
  /\ forall y, In y (contents (queue (drive q0 calls))) -> less y x = false.
Proof.
  intros H0 Hpop.
  destruct (driven_invariant q0 calls H0) as [Hs _].
  pose proof (pop_contents (queue (drive q0 calls))) as Hc.
  destruct (contents (queue (drive q0 calls))) as [|z r] eqn:E.
  - rewrite Hpop in Hc. discriminate.
  - rewrite Hpop in Hc. simpl in Hc. destruct Hc as [Hz Hr].
    injection Hz as ->. split.
    + now rewrite Hr.
    + now apply in_order_first_minimal.
Qed.

Lemma driven_pop_nonempty (q0 : Q) calls :
  contents (queue (drive q0 calls)) <> [] ->
  exists x q', pop (queue (drive q0 calls)) = (Some x, q').
Proof.
  intros Hne.
  pose proof (pop_contents (queue (drive q0 calls))) as Hc.
  destruct (contents (queue (drive q0 calls))) as [|z r]; [congruence|].
  destruct (pop (queue (drive q0 calls))) as [o q']. simpl in Hc.
  destruct Hc as [-> _]. eauto.
Qed.

(** Within a class whose members never arrive in front of a resident
    member, what was popped followed by what is resident is what was
    inserted, in insertion order. *)
Lemma driven_fifo (tie : Activity -> bool) (q0 : Q) calls :
  contents q0 = [] ->
  StronglySorted (fun x a => tie x = true -> tie a = true -> less a x = false)
                 (inserted (drive q0 calls)) ->
  filter tie (popped (drive q0 calls))
    ++ filter tie (contents (queue (drive q0 calls)))
  = filter tie (inserted (drive q0 calls)).
Proof.
  intros H0. induction calls as [|c calls IH] using rev_ind.
  - intros _. unfold drive. simpl. now rewrite H0.
  - rewrite drive_snoc.
    destruct (driven_invariant q0 calls H0) as [Hs Hp].
    set (s := drive q0 calls) in *.
    destruct c as [a|]; simpl.
    + intros Hm. apply StronglySorted_snoc_inv in Hm.
      destruct Hm as [Hm Ha]. specialize (IH Hm).
      rewrite insert_contents, filter_app. simpl.
      destruct (tie a) eqn:Et.
      * assert (Hcls : filter tie (StdMultiset.insert less a (contents (queue s)))
                       = filter tie (contents (queue s)) ++ [a]).
        { apply filter_insert_same_class; auto.
          intros x Hx Hx'. rewrite Forall_forall in Ha.
          apply Ha; auto.
          apply Permutation_sym in Hp.
          eapply Permutation_in; [exact Hp|].
          apply in_or_app. now right. }
        now rewrite Hcls, app_assoc, IH.
      * rewrite (filter_insert_other_class less tie a _ Et), app_nil_r.
        exact IH.
    + pose proof (pop_contents (queue s)) as Hpop.
      destruct (contents (queue s)) as [|x r] eqn:E.
      * rewrite Hpop. simpl. intros Hm. rewrite E.
        rewrite <- (IH Hm). reflexivity.
      * destruct (pop (queue s)) as [o q']. simpl in Hpop.
        destruct Hpop as [-> Hq']. simpl. intros Hm. rewrite Hq'.
        rewrite <- (IH Hm), filter_app, <- app_assoc. simpl.
        destruct (tie x); reflexivity.
Qed.

(** Popping as often as there are residents hands all of them out. *)
Lemma pop_all (l : list Activity) : forall s : driven Q,
  contents (queue s) = l ->
  let s' := fold_left drive_call (repeat CallPop (List.length l)) s in
  popped s' = popped s ++ l /\ contents (queue s') = [] /\ inserted s' = inserted s.
Proof.
  induction l as [|x r IH]; intros s E; simpl.
  - now rewrite app_nil_r.
  - pose proof (pop_contents (queue s)) as Hpop. rewrite E in Hpop.
    destruct (pop (queue s)) as [o q']. simpl in Hpop.
    destruct Hpop as [-> Hq'].
    destruct (IH (mkDriven q' (inserted s) (popped s ++ [x])) Hq') as (H1 & H2 & H3).
    simpl in *. rewrite H1, H2, H3, <- app_assoc. auto.
Qed.

Lemma inserts_only (ins : list Activity) (q0 : Q) :
  inserted (drive q0 (map CallInsert ins)) = ins
  /\ popped (drive q0 (map CallInsert ins)) = [].
Proof.
  induction ins as [|a ins IH] using rev_ind.
  - split; reflexivity.
  - rewrite map_app. simpl. rewrite drive_snoc. simpl.
    destruct IH as [-> ->]. auto.
Qed.

(** Insert a batch, then pop until empty: the batch comes out ordered. *)
Lemma drive_batch (ins : list Activity) (q0 : Q) :
  contents q0 = [] ->
  let d := drive q0 (map CallInsert ins ++ repeat CallPop (List.length ins)) in
  Permutation ins (popped d)
  /\ StdMultiset.in_order less (popped d)
  /\ contents (queue d) = []
  /\ inserted d = ins.
Proof.
  intros H0 d.
  destruct (driven_invariant q0 (map CallInsert ins) H0) as [Hs Hp].
  destruct (inserts_only ins q0) as [Hi Hn].
  rewrite Hi, Hn in Hp. simpl in Hp.
  assert (Hlen : List.length ins
                 = List.length (contents (queue (drive q0 (map CallInsert ins))))).
  { now apply Permutation_length. }
  subst d. unfold drive. rewrite fold_left_app. rewrite Hlen.
  destruct (pop_all _ (fold_left drive_call (map CallInsert ins) (mkDriven q0 [] []))
                    eq_refl) as (H1 & H2 & H3).
  fold (drive q0 (map CallInsert ins)) in *.
  rewrite H1, H2, H3, Hn, Hi. simpl. auto.
Qed.

End DrivenQueue.

(** ** PollingLinkQueue and TimeVortex are such queues *)

Lemma PollingLinkQueue_insert_contents a q :
  PollingLinkQueue.data (insert a q)
  = StdMultiset.insert less_time a (PollingLinkQueue.data q).
Proof. reflexivity. Qed.

Lemma PollingLinkQueue_pop_contents (q : PollingLinkQueue.t) :
  match PollingLinkQueue.data q with
  | [] => pop q = (None, q)
  | x :: r => fst (pop q) = Some x /\ PollingLinkQueue.data (snd (pop q)) = r
  end.
Proof.
  destruct q as [[|x r]]; simpl.
  - reflexivity.
  - unfold PollingLinkQueue.pop, StdMultiset.size. simpl List.length.
    destruct (Z.eqb_spec (Z.of_nat (S (List.length r))) 0); [lia|].
    simpl. auto.
Qed.



Lemma StronglySorted_impl {T} (R R' : T -> T -> Prop) (l : list T) :
  (forall x y, R x y -> R' x y) -> StronglySorted R l -> StronglySorted R' l.
Proof.
  intros HR. induction 1 as [|x l Hs IH Hf]; constructor; auto.
  rewrite Forall_forall in *. auto.
Qed.

(** Activities of one delivery time never compare less than one another. *)
Lemma at_time_class t (l : list Activity) :
  StronglySorted
    (fun x a => at_time t x = true -> at_time t a = true -> less_time a x = false) l.
Proof.
  induction l as [|x l IH]; constructor; auto.
  rewrite Forall_forall. intros a _ Hx Ha.
  unfold at_time, less_time in *. order_cases.
Qed.

(** ** Claims about the queues *)

(** C5.  [pop] and [front] of an ActivityQueue are total and hand back
    nothing on an empty queue; for PollingLinkQueue (and for the TimeVortex
    as modelled over its declared multiset) they return NULL exactly when
    the queue holds no Activity, and [pop] leaves an empty queue as it
    was. *)
Theorem pop_front_null_iff_empty :
  (forall q : PollingLinkQueue.t,
      (fst (pop q) = None <-> PollingLinkQueue.data q = [])
      /\ (front q = None <-> PollingLinkQueue.data q = [])
      /\ (PollingLinkQueue.data q = [] <-> size q = 0)
      /\ (PollingLinkQueue.data q = [] -> pop q = (None, q)))
  /\ (forall q : TimeVortex.t,
      (fst (pop q) = None <-> TimeVortex.data q = [])
      /\ (front q = None <-> TimeVortex.data q = [])
      /\ (TimeVortex.data q = [] <-> size q = 0)
      /\ (TimeVortex.data q = [] -> pop q = (None, q))).
Proof.
  split; intros [[|x r]]; simpl;
    unfold PollingLinkQueue.pop, PollingLinkQueue.front, PollingLinkQueue.size,
           TimeVortex.pop, TimeVortex.front, TimeVortex.size, StdMultiset.size;
    simpl List.length;
    try (destruct (Z.eqb_spec (Z.of_nat (S (List.length r))) 0); [lia|]);
    simpl; repeat split; intros; try reflexivity; try discriminate; try lia.
Qed.

(** C6.  A PollingLinkQueue is ordered by delivery time only.  In every
    state a queue reaches from empty through inserts and pops:
    (1) on a non-empty queue [pop] removes and returns one Activity, whose
        delivery time is minimal among the residents, whatever the
        priorities;
    (2) for each delivery time, the Activities popped so far followed by
        those still resident are the Activities inserted, in insertion
        order;
    and (3) a batch inserted and then popped until empty comes out by
    non-decreasing delivery time, equal times in insertion order. *)
Theorem PollingLinkQueue_pop_by_delivery_time :
  (forall calls : list queue_call,
      let d := drive PollingLinkQueue.new calls in
      (PollingLinkQueue.data (queue d) <> [] ->
       exists x q',
         pop (queue d) = (Some x, q')
         /\ PollingLinkQueue.data (queue d) = x :: PollingLinkQueue.data q'
         /\ forall y, In y (PollingLinkQueue.data (queue d)) ->
                      delivery_time x <= delivery_time y)
      /\ (forall t,
             filter (at_time t) (popped d)
               ++ filter (at_time t) (PollingLinkQueue.data (queue d))
             = filter (at_time t) (inserted d)))
  /\ (forall ins : list Activity,
         let d := drive PollingLinkQueue.new
                        (map CallInsert ins ++ repeat CallPop (List.length ins)) in
         Permutation ins (popped d)
         /\ StronglySorted (fun a b => delivery_time a <= delivery_time b) (popped d)
         /\ forall t, filter (at_time t) (popped d) = filter (at_time t) ins).
Proof.
  split.
  - intros calls d. split.
    + intros Hne.
      destruct (driven_pop_nonempty PollingLinkQueue.data
                  PollingLinkQueue_pop_contents PollingLinkQueue.new calls Hne)
        as (x & q' & Hpop).
      exists x, q'. split; [exact Hpop|].
      destruct (driven_pop_minimal PollingLinkQueue.data less_time
                  less_time_irrefl less_time_trans
                  PollingLinkQueue_insert_contents PollingLinkQueue_pop_contents
                  PollingLinkQueue.new calls x q' eq_refl Hpop) as [Hd Hmin].
      split; [exact Hd|].
      intros y Hy. specialize (Hmin y Hy). unfold less_time in Hmin.
      destruct (Z.ltb_spec (delivery_time y) (delivery_time x)); [discriminate|lia].
    + intros t.
      apply (driven_fifo PollingLinkQueue.data less_time
               less_time_irrefl less_time_trans less_time_incomparable
               PollingLinkQueue_insert_contents PollingLinkQueue_pop_contents
               (at_time t) PollingLinkQueue.new calls eq_refl).
      apply at_time_class.
  - intros ins d.
    destruct (drive_batch PollingLinkQueue.data less_time
                less_time_irrefl less_time_trans
                PollingLinkQueue_insert_contents PollingLinkQueue_pop_contents
                ins PollingLinkQueue.new eq_refl) as (Hp & Hs & He & Hi).
    fold d in Hp, Hs, He, Hi.
    split; [exact Hp|]. split.
    + apply StronglySorted_impl with (2 := Hs).
      intros x y H. unfold less_time in H.
      destruct (Z.ltb_spec (delivery_time y) (delivery_time x)); [discriminate|lia].
    + intros t.
      pose proof (driven_fifo PollingLinkQueue.data less_time
               less_time_irrefl less_time_trans less_time_incomparable
               PollingLinkQueue_insert_contents PollingLinkQueue_pop_contents
               (at_time t) PollingLinkQueue.new
               (map CallInsert ins ++ repeat CallPop (List.length ins)) eq_refl) as F.
      fold d in F. rewrite He, Hi, app_nil_r in F. apply F.
      apply at_time_class.
Qed.






(** ** std::map *)

Lemma find_insert_eq {V} k (v : V) m :
  StdMap.find k (StdMap.insert k v m) = Some v.
Proof.
  induction m as [|[k' v'] r IH]; simpl.
  - now rewrite Z.eqb_refl.
  - destruct (Z.ltb_spec k k'); simpl.
    + now rewrite Z.eqb_refl.
    + destruct (Z.eqb_spec k k') as [->|Hne]; simpl.
      * now rewrite Z.eqb_refl.
      * destruct (Z.eqb_spec k k'); [contradiction|exact IH].
Qed.

Lemma find_insert_neq {V} j k (v : V) m :
  j <> k -> StdMap.find j (StdMap.insert k v m) = StdMap.find j m.
Proof.
  intros Hjk. induction m as [|[k' v'] r IH]; simpl.
  - destruct (Z.eqb_spec j k); [contradiction|reflexivity].
  - destruct (Z.ltb_spec k k'); simpl.
    + destruct (Z.eqb_spec j k); [contradiction|reflexivity].
    + destruct (Z.eqb_spec k k') as [->|Hne]; simpl.
      * destruct (Z.eqb_spec j k'); [contradiction|reflexivity].
      * now rewrite IH.
Qed.

Lemma get_insert_eq {V} k (v d : V) m :
  StdMap.get k (StdMap.insert k v m) d = v.
Proof. unfold StdMap.get. now rewrite find_insert_eq. Qed.

Lemma get_insert_neq {V} j k (v d : V) m :
  j <> k -> StdMap.get j (StdMap.insert k v m) d = StdMap.get j m d.
Proof. intros H. unfold StdMap.get. now rewrite find_insert_neq. Qed.

Lemma insert_insert {V} k (v1 v2 : V) m :
  StdMap.insert k v2 (StdMap.insert k v1 m) = StdMap.insert k v2 m.
Proof.
  induction m as [|[k' v'] r IH]; simpl.
  - now rewrite Z.ltb_irrefl, Z.eqb_refl.
  - destruct (Z.ltb_spec k k') as [Hlt|Hge]; simpl.
    + now rewrite Z.ltb_irrefl, Z.eqb_refl.
    + destruct (Z.eqb_spec k k') as [->|Hne]; simpl.
      * now rewrite Z.ltb_irrefl, Z.eqb_refl.
      * destruct (Z.ltb_spec k k'); [lia|].
        destruct (Z.eqb_spec k k'); [contradiction|].
        now rewrite IH.
Qed.

Lemma count_zero_iff {V} k (m : StdMap.t V) :
  (StdMap.count k m =? 0) = true <-> StdMap.find k m = None.
Proof.
  unfold StdMap.count. destruct (StdMap.find k m); simpl; split;
    intros H; congruence.
Qed.

Lemma find_In {V} k (v : V) m : StdMap.find k m = Some v -> In (k, v) m.
Proof.
  induction m as [|[k' v'] r IH]; simpl; [discriminate|].
  destruct (Z.eqb_spec k k') as [->|Hne]; intros H.
  - injection H as ->. now left.
  - right. auto.
Qed.

(** Binding an absent key adds one binding and moves none. *)
Lemma insert_absent_perm {V} k (v : V) m :
  StdMap.find k m = None -> Permutation ((k, v) :: m) (StdMap.insert k v m).
Proof.
  induction m as [|[k' v'] r IH]; simpl; intros H.
  - reflexivity.
  - destruct (Z.eqb_spec k k') as [->|Hne]; [discriminate|].
    destruct (Z.ltb_spec k k'); [reflexivity|].
    rewrite perm_swap. constructor. auto.
Qed.

Lemma insert_In {V} k (v : V) m i :
  In i (StdMap.insert k v m) -> i = (k, v) \/ In i m.
Proof.
  induction m as [|[k' v'] r IH]; simpl.
  - intros [Hi|[]]; auto.
  - destruct (Z.ltb_spec k k'); simpl.
    + intros [Hi|[Hi|Hi]]; auto.
    + destruct (Z.eqb_spec k k'); simpl.
      * intros [Hi|Hi]; auto.
      * intros [Hi|Hi]; auto. destruct (IH Hi); auto.
Qed.

Lemma insert_ordered {V} k (v : V) m :
  StdMap.ordered m -> StdMap.ordered (StdMap.insert k v m).
Proof.
  unfold StdMap.ordered, StdMap.keys.
  induction m as [|[k' v'] r IH]; simpl; intros Hs.
  - repeat constructor.
  - apply StronglySorted_inv in Hs. destruct Hs as [Hr Hk].
    destruct (Z.ltb_spec k k'); simpl.
    + constructor; [constructor; assumption|].
      constructor; [assumption|].
      rewrite Forall_forall in *. intros y Hy. specialize (Hk y Hy). lia.
    + destruct (Z.eqb_spec k k') as [->|Hne]; simpl.
      * constructor; assumption.
      * constructor; [auto|].
        rewrite Forall_forall in *. intros y Hy.
        apply in_map_iff in Hy. destruct Hy as [i [<- Hi]].
        apply insert_In in Hi. destruct Hi as [->|Hi]; simpl; [lia|].
        apply Hk. now apply in_map.
Qed.

(** In a map whose values name distinct queues, a queue belongs to one key. *)
Lemma queue_owner (m : StdMap.t (addr * addr)) r1 r2 q v1 v2 :
  NoDup (map (fun i : Z * (addr * addr) => fst (snd i)) m) ->
  StdMap.find r1 m = Some (q, v1) -> StdMap.find r2 m = Some (q, v2) -> r1 = r2.
Proof.
  induction m as [|[k [q' v']] r IH]; simpl; [discriminate|].
  intros Hnd H1 H2. inversion Hnd as [|? ? Hnotin Hnd']; subst.
  destruct (Z.eqb_spec r1 k) as [->|Hn1]; destruct (Z.eqb_spec r2 k) as [->|Hn2];
    auto.
  - injection H1 as -> ->. apply find_In in H2.
    exfalso. apply Hnotin. apply in_map_iff. exists (r2, (q, v2)). auto.
  - injection H2 as -> ->. apply find_In in H1.
    exfalso. apply Hnotin. apply in_map_iff. exists (r1, (q, v1)). auto.
Qed.

(** ** registerLink *)

Lemma registerLink_first rank link_id link w :
  StdMap.find rank (comm_map (this w)) = None ->
  registerLink rank link_id link w
  = ([NewSyncQueue (next_addr w); NewVector (next_addr w + 1)],
     Ok (next_addr w)
        (mkWorld
           (mkSync (period (this w))
                   (StdMap.insert rank (next_addr w, next_addr w + 1)
                                  (comm_map (this w)))
                   (StdMap.insert link_id link (link_map (this w)))
                   (comm (this w)) (base (this w)))
           (StdMap.insert (next_addr w) [] (queues w))
           (StdMap.insert (next_addr w + 1) [] (vectors w))
           (next_addr w + 2) (sim w))).
Proof.
  destruct w as [[p cm lm c b] qs vs n sm]. simpl. intros H.
  unfold registerLink, bind, get. simpl.
  rewrite (proj2 (count_zero_iff rank cm) H).
  unfold new_SyncQueue, new_vector, modify_this, modify, bind, get, put, emit, ret.
  simpl. rewrite !get_insert_eq, insert_insert. simpl.
  replace (n + 1 + 1) with (n + 2) by lia. reflexivity.
Qed.

Lemma registerLink_again rank link_id link w q v :
  StdMap.find rank (comm_map (this w)) = Some (q, v) ->
  registerLink rank link_id link w
  = ([],
     Ok q (set_this (set_link_map (StdMap.insert link_id link (link_map (this w)))
                                  (this w)) w)).
Proof.
  destruct w as [[p cm lm c b] qs vs n sm]. simpl. intros H.
  unfold registerLink, bind, get. simpl.
  assert (Hc : (StdMap.count rank cm =? 0) = false).
  { unfold StdMap.count. now rewrite H. }
  rewrite Hc. unfold modify_this, modify, bind, ret. simpl.
  unfold StdMap.get. rewrite H. reflexivity.
Qed.

(** Every call returns, binds the rank to the queue it returns, and keeps
    the bindings of every rank already known. *)
Lemma registerLink_runs rank link_id link w :
  exists tr q v w',
    registerLink rank link_id link w = (tr, Ok q w')
    /\ StdMap.find rank (comm_map (this w')) = Some (q, v)
    /\ StdMap.find link_id (link_map (this w')) = Some link
    /\ (forall r p, StdMap.find r (comm_map (this w)) = Some p ->
                    StdMap.find r (comm_map (this w')) = Some p)
    /\ (wf w -> wf w').
Proof.
  destruct (StdMap.find rank (comm_map (this w))) as [[q v]|] eqn:E.
  - eexists _, q, v, _. split; [now apply registerLink_again with (v := v)|].
    simpl. split; [exact E|]. split; [apply find_insert_eq|].
    split; [auto|]. intros H. exact H.
  - eexists _, _, _, _. split; [now apply registerLink_first|].
    simpl. split; [apply find_insert_eq|]. split; [apply find_insert_eq|]. split.
    + intros r p Hr. rewrite find_insert_neq; [exact Hr|]. congruence.
    + intros (Hq & Hv & Hlt & Hord). unfold wf, buffers_distinct in *. simpl.
      pose proof (insert_absent_perm rank (next_addr w, next_addr w + 1) _ E) as P.
      rewrite Forall_forall in Hlt.
      repeat split.
      * eapply Permutation_NoDup; [apply Permutation_map, P|]. simpl.
        constructor; [|exact Hq].
        intros Hin. apply in_map_iff in Hin. destruct Hin as [i [Hi Hin]].
        specialize (Hlt i Hin). lia.
      * eapply Permutation_NoDup; [apply Permutation_map, P|]. simpl.
        constructor; [|exact Hv].
        intros Hin. apply in_map_iff in Hin. destruct Hin as [i [Hi Hin]].
        specialize (Hlt i Hin). lia.
      * rewrite Forall_forall. intros i Hi. apply insert_In in Hi.
        destruct Hi as [->|Hi]; simpl; [lia|].
        specialize (Hlt i Hi). lia.
      * now apply insert_ordered.
Qed.

Lemma registerLinks_runs calls : forall w,
  wf w ->
  exists tr qs w',
    registerLinks calls w = (tr, Ok qs w')
    /\ wf w'
    /\ (forall r p, StdMap.find r (comm_map (this w)) = Some p ->
                    StdMap.find r (comm_map (this w')) = Some p)
    /\ (forall i c, nth_error calls i = Some c ->
          exists q v, nth_error qs i = Some q
                      /\ StdMap.find (fst (fst c)) (comm_map (this w')) = Some (q, v)).
Proof.
  induction calls as [|[[rank link_id] link] rest IH]; intros w Hwf.
  - exists [], [], w. simpl.
    split; [reflexivity|]. split; [exact Hwf|]. split; [auto|].
    intros [|i] c Hc; discriminate.
  - destruct (registerLink_runs rank link_id link w)
      as (tr1 & q & v & w1 & Hrun & Hq & _ & Hmono1 & Hwf1).
    destruct (IH w1 (Hwf1 Hwf)) as (tr2 & qs & w2 & Hruns & Hwf2 & Hmono2 & Hnth).
    exists (tr1 ++ tr2 ++ []), (q :: qs), w2.
    split.
    { simpl. unfold bind at 1. rewrite Hrun.
      unfold bind at 1. rewrite Hruns. reflexivity. }
    split; [exact Hwf2|]. split; [auto|].
    intros [|i] c Hc; simpl in Hc.
    + injection Hc as <-. simpl. exists q, v. auto.
    + simpl. auto.
Qed.

(** C9.  [registerLink] allocates one SyncQueue per peer rank.
    (1) The first call naming a rank creates a fresh SyncQueue and a fresh
        receive buffer, both empty, binds the rank to them and returns the
        queue.
    (2) A call naming a rank already bound returns the queue bound to it and
        creates nothing: the heap, the rank map and the allocation counter
        are as before.
    (3) Either way the call binds [link_id] to [link] in the link map.
    (4) Over any sequence of calls, two calls return the same queue exactly
        when they name the same rank. *)
Theorem registerLink_one_queue_per_rank :
  (forall rank link_id link w,
      wf w ->
      StdMap.find rank (comm_map (this w)) = None ->
      exists q v w',
        registerLink rank link_id link w = ([NewSyncQueue q; NewVector v], Ok q w')
        /\ Forall (fun i : Z * (addr * addr) => fst (snd i) <> q /\ snd (snd i) <> v)
                  (comm_map (this w))
        /\ StdMap.find q (queues w') = Some []
        /\ StdMap.find v (vectors w') = Some []
        /\ StdMap.find rank (comm_map (this w')) = Some (q, v)
        /\ StdMap.find link_id (link_map (this w')) = Some link)
  /\ (forall rank link_id link w q v,
         StdMap.find rank (comm_map (this w)) = Some (q, v) ->
         exists w',
           registerLink rank link_id link w = ([], Ok q w')
           /\ comm_map (this w') = comm_map (this w)
           /\ queues w' = queues w
           /\ vectors w' = vectors w
           /\ next_addr w' = next_addr w
           /\ StdMap.find link_id (link_map (this w')) = Some link)
  /\ (forall calls w,
         wf w ->
         exists tr qs w',
           registerLinks calls w = (tr, Ok qs w')
           /\ forall i j ci cj qi qj,
               nth_error calls i = Some ci -> nth_error calls j = Some cj ->
               nth_error qs i = Some qi -> nth_error qs j = Some qj ->
               (fst (fst ci) = fst (fst cj) <-> qi = qj)).
Proof.
  split; [|split].
  - intros rank link_id link w (_ & _ & Hlt & _) E.
    eexists _, _, _. split; [now apply registerLink_first|]. simpl.
    split.
    { rewrite Forall_forall in *. intros i Hi. specialize (Hlt i Hi). lia. }
    repeat split; apply find_insert_eq.
  - intros rank link_id link w q v E.
    eexists. split; [now apply registerLink_again with (v := v)|]. simpl.
    repeat split. apply find_insert_eq.
  - intros calls w Hwf.
    destruct (registerLinks_runs calls w Hwf) as (tr & qs & w' & Hrun & Hwf' & _ & Hnth).
    exists tr, qs, w'. split; [exact Hrun|].
    intros i j ci cj qi qj Hi Hj Hqi Hqj.
    destruct (Hnth i ci Hi) as (qi' & vi & Hqi' & Hfi).
    destruct (Hnth j cj Hj) as (qj' & vj & Hqj' & Hfj).
    assert (qi' = qi) by congruence. assert (qj' = qj) by congruence. subst.
    split; intros H.
    + rewrite H in Hfi. congruence.
    + subst qj. destruct Hwf' as (Hnd & _).
      exact (queue_owner _ _ _ _ _ _ Hnd Hfi Hfj).
Qed.

(** X1.  Every Sync reached by constructing it and registering links
    satisfies the invariant: one SyncQueue and one receive buffer per rank,
    none shared; in particular its receive buffers are distinct. *)
Lemma registered_world_wf action p w0 calls :
  exists tr1 w1 tr2 qs w2,
    Sync_new action p w0 = (tr1, Ok tt w1)
    /\ registerLinks calls w1 = (tr2, Ok qs w2)
    /\ wf w2 /\ buffers_distinct w2.
Proof.
  assert (Hnew : exists tr1 w1,
             Sync_new action p w0 = (tr1, Ok tt w1) /\ wf w1).
  { eexists _, _. split; [reflexivity|].
    unfold wf, buffers_distinct, StdMap.ordered. simpl.
    repeat split; constructor. }
  destruct Hnew as (tr1 & w1 & Hnew & Hwf).
  destruct (registerLinks_runs calls w1 Hwf) as (tr2 & qs & w2 & Hrun & Hwf2 & _).
  exists tr1, w1, tr2, qs, w2. split; [exact Hnew|]. split; [exact Hrun|].
  split; [exact Hwf2|]. now destruct Hwf2 as (_ & H & _).
Qed.

(** ** Prefixes and first failures *)

Lemma first_bad_app {T} (p : T -> bool) (a b : list T) :
  first_bad p (a ++ b)
  = match first_bad p a with Some x => Some x | None => first_bad p b end.
Proof.
  unfold first_bad. induction a as [|x a IH]; simpl; [reflexivity|].
  destruct (p x); simpl; auto.
Qed.

Lemma take_while_app {T} (p : T -> bool) (a b : list T) :
  take_while p (a ++ b)
  = match first_bad p a with
    | Some _ => take_while p a
    | None => a ++ take_while p b
    end.
Proof.
  unfold first_bad. induction a as [|x a IH]; simpl; [reflexivity|].
  destruct (p x); simpl; [|reflexivity].
  rewrite IH. destruct (find (fun x => negb (p x)) a); reflexivity.
Qed.

Lemma first_bad_None {T} (p : T -> bool) (l : list T) :
  first_bad p l = None <-> forall x, In x l -> p x = true.
Proof.
  unfold first_bad. induction l as [|x l IH]; simpl.
  - split; [intros _ ? []|reflexivity].
  - destruct (p x) eqn:E; simpl.
    + rewrite IH. split; intros H.
      * intros y [<-|Hy]; auto.
      * intros y Hy. apply H. now right.
    + split; [discriminate|]. intros H.
      rewrite (H x (or_introl eq_refl)) in E. discriminate.
Qed.

Lemma take_while_all {T} (p : T -> bool) (l : list T) :
  first_bad p l = None -> take_while p l = l.
Proof.
  unfold first_bad. induction l as [|x l IH]; simpl; [reflexivity|].
  destruct (p x); simpl; [|discriminate]. intros H. now rewrite IH.
Qed.

(** ** The loops of sync.cc *)

Lemma post_loop c (ranks : list (Z * (addr * addr))) : forall acc w,
  foldM (post_one c) acc ranks w
  = (flat_map (fun i : Z * (addr * addr) =>
                 let '(rank, (q, v)) := i in
                 [Isend c rank 0 (StdMap.get q (queues w) []); Irecv c rank 0 v])
              ranks,
     Ok (acc ++ flat_map (fun i : Z * (addr * addr) =>
                            let '(rank, (_, v)) := i in
                            [SendRequest rank 0; RecvRequest rank 0 v])
                         ranks)
        w).
Proof.
  induction ranks as [|[rank [q v]] rest IH]; intros acc w; simpl.
  - unfold ret. now rewrite app_nil_r.
  - unfold bind at 1. unfold post_one at 1.
    unfold SyncQueue_getVector, comm_isend, comm_irecv, bind, get, emit, ret.
    simpl. fold (bind (A := list request) (B := list request)).
    rewrite IH. now rewrite <- app_assoc.
Qed.

Lemma post_exchange_run w :
  post_exchange w = (posted w, Ok (requests_of w) w).
Proof.
  unfold post_exchange, bind, get. rewrite post_loop. reflexivity.
Qed.

Lemma wait_all_run env reqs w :
  wait_all env reqs w
  = ([WaitAll reqs], Ok tt (fold_left (fun w r => complete env r w) reqs w)).
Proof. reflexivity. Qed.

(** Completing requests touches the receive buffers only. *)
Lemma complete_frame env reqs : forall w,
  let w' := fold_left (fun w r => complete env r w) reqs w in
  this w' = this w /\ queues w' = queues w /\ sim w' = sim w
  /\ next_addr w' = next_addr w.
Proof.
  induction reqs as [|r reqs IH]; intros w; simpl; [auto|].
  destruct (IH (complete env r w)) as (H1 & H2 & H3 & H4).
  rewrite H1, H2, H3, H4. destruct r; simpl; auto.
Qed.

Lemma complete_other env (ranks : list (Z * (addr * addr))) v : forall w,
  ~ In v (map (fun i : Z * (addr * addr) => snd (snd i)) ranks) ->
  StdMap.get v
    (vectors (fold_left (fun w r => complete env r w)
                (flat_map (fun i : Z * (addr * addr) =>
                             let '(rank, (_, v)) := i in
                             [SendRequest rank 0; RecvRequest rank 0 v]) ranks) w))
    []
  = StdMap.get v (vectors w) [].
Proof.
  induction ranks as [|[rank [q v']] rest IH]; intros w Hnin; simpl; [reflexivity|].
  simpl in Hnin. rewrite IH by tauto. simpl.
  apply get_insert_neq. intros ->. tauto.
Qed.

(** After the exchange each rank's buffer holds what that rank sent. *)
Lemma complete_buffers env (ranks : list (Z * (addr * addr))) : forall w i,
  NoDup (map (fun i : Z * (addr * addr) => snd (snd i)) ranks) ->
  In i ranks ->
  StdMap.get (snd (snd i))
    (vectors (fold_left (fun w r => complete env r w)
                (flat_map (fun i : Z * (addr * addr) =>
                             let '(rank, (_, v)) := i in
                             [SendRequest rank 0; RecvRequest rank 0 v]) ranks) w))
    []
  = incoming env (fst i).
Proof.
  induction ranks as [|[rank [q v]] rest IH]; intros w i Hnd Hin; [destruct Hin|].
  simpl in Hnd. inversion Hnd as [|? ? Hnotin Hnd']; subst.
  destruct Hin as [<-|Hin]; simpl.
  - rewrite complete_other by exact Hnotin. simpl. apply get_insert_eq.
  - now apply IH.
Qed.

Lemma cleared_frame (ranks : list (Z * (addr * addr))) : forall w,
  this (cleared ranks w) = this w /\ sim (cleared ranks w) = sim w
  /\ next_addr (cleared ranks w) = next_addr w.
Proof.
  unfold cleared.
  induction ranks as [|i rest IH]; intros w; simpl; [auto|].
  match goal with |- context [fold_left _ rest ?w1] =>
    destruct (IH w1) as (H1 & H2 & H3) end.
  rewrite H1, H2, H3. auto.
Qed.

Lemma cleared_stays_empty (ranks : list (Z * (addr * addr))) q : forall w,
  StdMap.get q (queues w) [] = [] ->
  StdMap.get q (queues (cleared ranks w)) [] = [].
Proof.
  unfold cleared.
  induction ranks as [|i rest IH]; intros w H; simpl; [exact H|].
  apply IH. simpl.
  destruct (Z.eq_dec q (fst (snd i))) as [->|Hne].
  - apply get_insert_eq.
  - now rewrite get_insert_neq.
Qed.

(** Once the closing loop is through, every rank's SyncQueue is empty. *)
Lemma cleared_queues (ranks : list (Z * (addr * addr))) : forall w i,
  In i ranks -> StdMap.get (fst (snd i)) (queues (cleared ranks w)) [] = [].
Proof.
  induction ranks as [|j rest IH]; intros w i Hin; [destruct Hin|].
  destruct Hin as [<-|Hin].
  - unfold cleared. simpl. apply (cleared_stays_empty rest). simpl.
    apply get_insert_eq.
  - unfold cleared. simpl. now apply IH.
Qed.

Section ReceiveLoop.

Variable env : Environment.
(** The Sync object, which the closing loop leaves alone. *)
Variable s0 : Sync.
Variable handle : Activity -> M unit.
Variable ok : Activity -> bool.
Variable out : Activity -> effect.
Variable bad : Activity -> list effect * stop.

Hypothesis handle_ok :
  forall ev w, this w = s0 -> ok ev = true -> handle ev w = ([out ev], Ok tt w).
Hypothesis handle_bad :
  forall ev w, this w = s0 -> ok ev = false ->
               handle ev w = (fst (bad ev), Stopped (snd (bad ev))).

Lemma handle_all evs : forall w,
  this w = s0 ->
  forM_ evs handle w
  = (map out (take_while ok evs)
       ++ match first_bad ok evs with Some e => fst (bad e) | None => [] end,
     match first_bad ok evs with
     | Some e => Stopped (snd (bad e))
     | None => Ok tt w
     end).
Proof.
  unfold first_bad.
  induction evs as [|e evs IH]; intros w Hw; simpl; [reflexivity|].
  unfold bind. destruct (ok e) eqn:E; simpl.
  - rewrite (handle_ok e w Hw E), (IH w Hw). reflexivity.
  - rewrite (handle_bad e w Hw E). reflexivity.
Qed.

Lemma receive_one_run rank q v w :
  this w = s0 ->
  receive_one handle (rank, (q, v)) w
  = (QueueClear q :: map out (take_while ok (StdMap.get v (vectors w) []))
       ++ match first_bad ok (StdMap.get v (vectors w) []) with
          | Some e => fst (bad e)
          | None => [VectorClear v]
          end,
     match first_bad ok (StdMap.get v (vectors w) []) with
     | Some e => Stopped (snd (bad e))
     | None =>
         Ok tt (set_vectors (StdMap.insert v [] (vectors w))
                            (set_queues (StdMap.insert q [] (queues w)) w))
     end).
Proof.
  intros Hw.
  unfold receive_one, SyncQueue_clear, vector_contents, vector_clear,
         bind, emit, modify, get, ret.
  simpl.
  rewrite (handle_all _ (set_queues (StdMap.insert q [] (queues w)) w) Hw).
  destruct (first_bad ok (StdMap.get v (vectors w) [])); simpl.
  - reflexivity.
  - now rewrite app_nil_r.
Qed.

Lemma receive_all (ranks : list (Z * (addr * addr))) : forall w,
  this w = s0 ->
  NoDup (map (fun i : Z * (addr * addr) => snd (snd i)) ranks) ->
  (forall i, In i ranks ->
             StdMap.get (snd (snd i)) (vectors w) [] = incoming env (fst i)) ->
  forM_ ranks (receive_one handle) w
  = (receive_trace env ok out bad ranks,
     match first_bad ok (flat_map (fun i : Z * (addr * addr) => incoming env (fst i))
                                  ranks) with
     | Some e => Stopped (snd (bad e))
     | None => Ok tt (cleared ranks w)
     end).
Proof.
  induction ranks as [|[rank [q v]] rest IH]; intros w Hw Hnd Hbuf.
  - reflexivity.
  - cbn [forM_ receive_trace flat_map fst].
    unfold bind. rewrite (receive_one_run rank q v w Hw).
    pose proof (Hbuf (rank, (q, v)) (or_introl eq_refl)) as Hhere.
    cbn [fst snd] in Hhere. rewrite Hhere.
    cbn [fst snd]. rewrite first_bad_app.
    destruct (first_bad ok (incoming env rank)) as [e|] eqn:E.
    + reflexivity.
    + inversion Hnd as [|? ? Hnotin Hnd']; subst.
      rewrite IH; auto.
      * simpl. rewrite <- app_assoc. reflexivity.
      * intros i Hi. simpl. rewrite get_insert_neq; [apply Hbuf; now right|].
        intros Heq. apply Hnotin. apply in_map_iff. exists i. auto.
Qed.

End ReceiveLoop.

(** ** Running the monad *)

Lemma bind_Ok {A B} (m : M A) (f : A -> M B) w t a w' :
  m w = (t, Ok a w') -> bind m f w = (t ++ fst (f a w'), snd (f a w')).
Proof. unfold bind. intros ->. destruct (f a w'). reflexivity. Qed.

Lemma bind_Stopped {A B} (m : M A) (f : A -> M B) w t why :
  m w = (t, Stopped why) -> bind m f w = (t, Stopped why).
Proof. unfold bind. intros ->. reflexivity. Qed.

(** ** execute *)

Lemma deliver_event_known w0 ev w :
  this w = this w0 -> link_known w0 ev = true ->
  deliver_event (currentSimCycle (sim w0)) ev w = ([send_effect w0 ev], Ok tt w).
Proof.
  intros Hw Hk. unfold deliver_event, link_known, send_effect, send_call in *.
  unfold bind, get, StdMap.get. simpl. rewrite Hw.
  destruct (StdMap.find (link_id ev) (link_map (this w0))); [reflexivity|discriminate].
Qed.

Lemma deliver_event_unknown w0 ev w :
  this w = this w0 -> link_known w0 ev = false ->
  deliver_event (currentSimCycle (sim w0)) ev w
  = (fst (execute_failure ev), Stopped (snd (execute_failure ev))).
Proof.
  intros Hw Hk. unfold deliver_event, link_known in *.
  unfold bind, get. simpl. rewrite Hw.
  destruct (StdMap.find (link_id ev) (link_map (this w0))); [discriminate|reflexivity].
Qed.

Lemma completed_frame env w :
  this (completed env w) = this w /\ queues (completed env w) = queues w
  /\ sim (completed env w) = sim w /\ next_addr (completed env w) = next_addr w.
Proof. unfold completed. apply complete_frame. Qed.

Lemma completed_buffers env w i :
  buffers_distinct w -> In i (comm_map (this w)) ->
  StdMap.get (snd (snd i)) (vectors (completed env w)) [] = incoming env (fst i).
Proof. intros Hd Hi. unfold completed, requests_of. now apply complete_buffers. Qed.

(** What [execute] does, in full: its trace and its outcome. *)
Lemma execute_run env w :
  buffers_distinct w ->
  execute env w
  = (posted w
       ++ WaitAll (requests_of w)
       :: receive_trace env (link_known w) (send_effect w) execute_failure
                        (comm_map (this w))
       ++ match first_bad (link_known w) (received env w) with
          | Some _ => []
          | None => [InsertActivity (next_barrier w) (rescheduled w)]
          end,
     match first_bad (link_known w) (received env w) with
     | Some _ => Stopped Aborted
     | None => Ok tt (after_execute env w)
     end).
Proof.
  intros Hd.
  destruct (completed_frame env w) as (Ht & Hq & Hs & Hn).
  assert (Hloop :
    for_each_received (deliver_event (currentSimCycle (sim w))) (completed env w)
    = (receive_trace env (link_known w) (send_effect w) execute_failure
                     (comm_map (this w)),
       match first_bad (link_known w) (received env w) with
       | Some e => Stopped (snd (execute_failure e))
       | None => Ok tt (cleared (comm_map (this w)) (completed env w))
       end)).
  { unfold for_each_received, bind, get. rewrite Ht.
    rewrite (receive_all env (this w)
               (deliver_event (currentSimCycle (sim w)))
               (link_known w) (send_effect w) execute_failure
               (deliver_event_known w) (deliver_event_unknown w)
               (comm_map (this w)) (completed env w) Ht Hd
               (fun i Hi => completed_buffers env w i Hd Hi)).
    reflexivity. }
  unfold execute.
  unfold bind at 1. rewrite post_exchange_run. cbv beta iota.
  unfold bind at 1. rewrite wait_all_run. cbv beta iota.
  fold (completed env w).
  unfold bind at 1. unfold getCurrentSimCycle at 1.
  unfold bind at 1. unfold get at 1. unfold ret at 1. cbv beta iota.
  rewrite Hs.
  unfold bind at 1. rewrite Hloop.
  destruct (cleared_frame (comm_map (this w)) (completed env w)) as (Ct & Cs & Cn).
  destruct (first_bad (link_known w) (received env w)) as [e|] eqn:E.
  - simpl. rewrite app_nil_r. reflexivity.
  - unfold after_execute, rescheduled, next_barrier.
    remember (cleared (comm_map (this w)) (completed env w)) as w2 eqn:Ew2.
    unfold bind, get, getCurrentSimCycle, insertActivity_this, emit, put, ret,
           set_sim, set_this.
    simpl. rewrite Ct, Cs, Ht, Hs, Cn, Hn. reflexivity.
Qed.

(** ** Reading the trace of execute *)

Lemma link_sends_app a b : link_sends (a ++ b) = link_sends a ++ link_sends b.
Proof. unfold link_sends. apply flat_map_app. Qed.

Lemma link_sends_dispatch w l :
  link_sends (map (send_effect w) l) = map (send_call w) l.
Proof.
  induction l as [|e l IH]; [reflexivity|].
  change (link_sends (map (send_effect w) (e :: l)))
    with (send_call w e :: link_sends (map (send_effect w) l)).
  now rewrite IH.
Qed.

Lemma link_sends_posted w : link_sends (posted w) = [].
Proof.
  unfold posted. induction (comm_map (this w)) as [|[rank [q v]] rest IH];
    [reflexivity|exact IH].
Qed.

Lemma link_sends_receive_trace env w ranks :
  link_sends (receive_trace env (link_known w) (send_effect w) execute_failure ranks)
  = map (send_call w)
        (take_while (link_known w)
           (flat_map (fun i : Z * (addr * addr) => incoming env (fst i)) ranks)).
Proof.
  induction ranks as [|[rank [q v]] rest IH]; [reflexivity|].
  cbn [receive_trace flat_map fst]. rewrite take_while_app.
  change (link_sends (QueueClear q :: ?t)) with (link_sends t).
  rewrite link_sends_app, link_sends_dispatch.
  destruct (first_bad (link_known w) (incoming env rank)) as [e|] eqn:E.
  - simpl. now rewrite app_nil_r.
  - change (link_sends (VectorClear v :: ?t)) with (link_sends t).
    rewrite IH, (take_while_all _ _ E), map_app. reflexivity.
Qed.


(** When some received Activity fails, the loop's trace ends with what the
    handler did on the first one that failed. *)
Lemma receive_trace_stops env ok out bad ranks e :
  first_bad ok (flat_map (fun i : Z * (addr * addr) => incoming env (fst i)) ranks)
  = Some e ->
  exists t, receive_trace env ok out bad ranks = t ++ fst (bad e).
Proof.
  induction ranks as [|[rank [q v]] rest IH]; [discriminate|].
  cbn [receive_trace flat_map fst]. rewrite first_bad_app.
  destruct (first_bad ok (incoming env rank)) as [e'|] eqn:E.
  - intros H. injection H as ->.
    exists (QueueClear q :: map out (take_while ok (incoming env rank))).
    reflexivity.
  - intros H. destruct (IH H) as [t Ht]. rewrite Ht.
    exists (QueueClear q :: map out (take_while ok (incoming env rank))
              ++ VectorClear v :: t).
    simpl. rewrite <- app_assoc. reflexivity.
Qed.

(** A list split at its first failure. *)
Lemma split_at_first_bad {T} (p : T -> bool) pre x post :
  (forall y, In y pre -> p y = true) -> p x = false ->
  first_bad p (pre ++ x :: post) = Some x
  /\ take_while p (pre ++ x :: post) = pre.
Proof.
  intros Hpre Hx. unfold first_bad.
  induction pre as [|y pre IH]; simpl.
  - now rewrite Hx.
  - rewrite (Hpre y (or_introl eq_refl)). simpl.
    destruct IH as [H1 H2]; [intros z Hz; apply Hpre; now right|].
    now rewrite H1, H2.
Qed.

Lemma all_known_first_bad {T} (p : T -> bool) l :
  (forall x, In x l -> p x = true) -> first_bad p l = None.
Proof. apply first_bad_None. Qed.

(** With every link known, [execute] completes and makes one [Send] call
    per received Activity, in the order received. *)
Lemma execute_all_known env w :
  buffers_distinct w ->
  (forall ev, In ev (received env w) -> link_known w ev = true) ->
  (exists w', outcome_of (execute env w) = Ok tt w')
  /\ link_sends (trace_of (execute env w)) = map (send_call w) (received env w).
Proof.
  intros Hd Hall.
  pose proof (all_known_first_bad _ _ Hall) as Hfb.
  rewrite (execute_run env w Hd), Hfb. unfold trace_of, outcome_of.
  cbn [fst snd]. split; [eauto|].
  rewrite link_sends_app, link_sends_posted.
  change (link_sends (WaitAll ?r :: ?t)) with (link_sends t).
  rewrite link_sends_app, link_sends_receive_trace.
  fold (received env w). rewrite (take_while_all _ _ Hfb).
  simpl. now rewrite app_nil_r.
Qed.

(** A completed [execute] leaves the rank map as it was, so the next
    barrier finds the buffers distinct again. *)
Lemma execute_keeps_buffers_distinct env w w' :
  buffers_distinct w ->
  outcome_of (execute env w) = Ok tt w' ->
  comm_map (this w') = comm_map (this w) /\ buffers_distinct w'.
Proof.
  intros Hd. rewrite (execute_run env w Hd). unfold outcome_of. cbn [snd].
  destruct (first_bad (link_known w) (received env w)); [discriminate|].
  intros H. injection H as <-. split; [reflexivity|exact Hd].
Qed.

(** ** Claims about execute *)



(** C4.  [execute] looks every received event up by its link id.  At the
    first event whose id is not in the link map it prints "Link not found
    in map!" and aborts: the events before it have been handed to their
    links, that event and the ones after it are handed to no link.  When
    every id is found, every event is handed to the link found for its id,
    through [Send], in the order received, and [execute] completes. *)
Theorem execute_link_lookup env w :
  buffers_distinct w ->
  (forall pre ev post,
      received env w = pre ++ ev :: post ->
      (forall e, In e pre -> link_known w e = true) ->
      StdMap.find (link_id ev) (link_map (this w)) = None ->
      outcome_of (execute env w) = Stopped Aborted
      /\ (exists t, trace_of (execute env w)
                    = t ++ [Printf "Link not found in map!\n" []])
      /\ link_sends (trace_of (execute env w)) = map (send_call w) pre
      /\ forall l d, ~ In (l, d, ev) (link_sends (trace_of (execute env w))))
  /\ ((forall ev, In ev (received env w) ->
                  StdMap.find (link_id ev) (link_map (this w)) <> None) ->
      (exists w', outcome_of (execute env w) = Ok tt w')
      /\ link_sends (trace_of (execute env w)) = map (send_call w) (received env w)
      /\ forall ev, In ev (received env w) ->
           StdMap.find (link_id ev) (link_map (this w))
           = Some (fst (fst (send_call w ev)))).
Proof.
  intros Hd. split.
  - intros pre ev post Hsplit Hpre Hev.
    assert (Hbad : link_known w ev = false).
    { unfold link_known. now rewrite Hev. }
    destruct (split_at_first_bad (link_known w) pre ev post Hpre Hbad) as [Hfb Htw].
    rewrite <- Hsplit in Hfb, Htw.
    rewrite (execute_run env w Hd), Hfb. unfold trace_of, outcome_of.
    cbn [fst snd].
    assert (Hsends :
      link_sends (posted w ++ WaitAll (requests_of w)
                    :: receive_trace env (link_known w) (send_effect w)
                         execute_failure (comm_map (this w)) ++ [])
      = map (send_call w) pre).
    { rewrite link_sends_app, link_sends_posted.
      change (link_sends (WaitAll ?r :: ?t)) with (link_sends t).
      rewrite link_sends_app, link_sends_receive_trace.
      fold (received env w). rewrite Htw. simpl. now rewrite app_nil_r. }
    split; [reflexivity|]. split; [|split].
    + destruct (receive_trace_stops env (link_known w) (send_effect w)
                  execute_failure (comm_map (this w)) ev Hfb) as [t Ht].
      rewrite Ht. exists (posted w ++ WaitAll (requests_of w) :: t).
      rewrite app_nil_r. simpl. rewrite <- app_assoc. reflexivity.
    + exact Hsends.
    + intros l d Hin. rewrite Hsends in Hin.
      apply in_map_iff in Hin. destruct Hin as [e [He Hin]].
      unfold send_call in He. injection He as _ _ ->.
      rewrite (Hpre ev Hin) in Hbad. discriminate.
  - intros Hall.
    assert (Hall' : forall ev, In ev (received env w) -> link_known w ev = true).
    { intros ev Hin. specialize (Hall ev Hin). unfold link_known.
      destruct (StdMap.find (link_id ev) (link_map (this w))); [reflexivity|congruence]. }
    destruct (execute_all_known env w Hd Hall') as (Hok & Hs).
    split; [exact Hok|]. split; [exact Hs|].
    intros ev Hin. specialize (Hall ev Hin).
    unfold send_call, StdMap.get. cbn [fst].
    destruct (StdMap.find (link_id ev) (link_map (this w))); [reflexivity|congruence].
Qed.

(** ** exchangeLinkInitData *)

Lemma move_loop env (links : list (LinkId_t * LinkPtr)) : forall w,
  forM_ links (fun i => Link_moveInitDataToRecvQueue env (snd i)) w
  = (map (fun i : LinkId_t * LinkPtr => LinkMoveInitDataToRecvQueue (snd i)) links,
     Ok tt (fold_left (fun w (i : LinkId_t * LinkPtr) =>
                         set_queues (moveInitData env (snd i) (queues w)) w)
                      links w)).
Proof.
  induction links as [|i links IH]; intros w; [reflexivity|].
  cbn [forM_ map fold_left]. unfold bind at 1.
  unfold Link_moveInitDataToRecvQueue at 1, bind at 1, emit, modify.
  cbv beta iota. rewrite IH. reflexivity.
Qed.

Lemma moved_frame env w :
  this (moved env w) = this w /\ vectors (moved env w) = vectors w
  /\ sim (moved env w) = sim w /\ next_addr (moved env w) = next_addr w.
Proof.
  unfold moved. generalize (link_map (this w)). intros links. revert w.
  induction links as [|i links IH]; intros w; simpl; [auto|].
  match goal with |- context [fold_left _ links ?w1] =>
    destruct (IH w1) as (H1 & H2 & H3 & H4) end.
  rewrite H1, H2, H3, H4. auto.
Qed.

Lemma deliver_init_data_known w0 j w :
  this w = this w0 -> init_data_known w0 j = true ->
  deliver_init_data j w = ([init_data_effect w0 j], Ok tt w).
Proof.
  intros Hw Hk.
  unfold deliver_init_data, init_data_known, link_known, init_data_effect,
         init_data_call, dynamic_cast_LinkInitData in *.
  destruct (kind j); try discriminate.
  unfold bind, get, StdMap.get. simpl. rewrite Hw.
  destruct (StdMap.find (link_id j) (link_map (this w0))); [reflexivity|discriminate].
Qed.

Lemma deliver_init_data_unknown w0 j w :
  this w = this w0 -> init_data_known w0 j = false ->
  deliver_init_data j w
  = (fst (init_data_failure j), Stopped (snd (init_data_failure j))).
Proof.
  intros Hw Hk.
  unfold deliver_init_data, init_data_known, link_known, init_data_failure,
         dynamic_cast_LinkInitData in *.
  destruct (kind j); try reflexivity.
  unfold bind, get. simpl. rewrite Hw.
  destruct (StdMap.find (link_id j) (link_map (this w0))); [discriminate|reflexivity].
Qed.

(** What [exchangeLinkInitData] does, in full. *)
Lemma exchangeLinkInitData_run env w :
  buffers_distinct w ->
  exchangeLinkInitData env w
  = (map (fun i : LinkId_t * LinkPtr => LinkMoveInitDataToRecvQueue (snd i))
         (link_map (this w))
       ++ posted (moved env w)
       ++ WaitAll (requests_of w)
       :: receive_trace env (init_data_known w) (init_data_effect w)
                        init_data_failure (comm_map (this w)),
     match first_bad (init_data_known w) (received env w) with
     | Some e => Stopped (snd (init_data_failure e))
     | None => Ok tt (cleared (comm_map (this w)) (completed env (moved env w)))
     end).
Proof.
  intros Hd.
  destruct (moved_frame env w) as (Mt & Mv & Ms & Mn).
  assert (Hd' : buffers_distinct (moved env w)).
  { unfold buffers_distinct. now rewrite Mt. }
  assert (Hreq : requests_of (moved env w) = requests_of w).
  { unfold requests_of. now rewrite Mt. }
  destruct (completed_frame env (moved env w)) as (Ht & Hq & Hs & Hn).
  assert (Hloop :
    for_each_received deliver_init_data (completed env (moved env w))
    = (receive_trace env (init_data_known w) (init_data_effect w)
                     init_data_failure (comm_map (this w)),
       match first_bad (init_data_known w) (received env w) with
       | Some e => Stopped (snd (init_data_failure e))
       | None => Ok tt (cleared (comm_map (this w)) (completed env (moved env w)))
       end)).
  { unfold for_each_received, bind, get. rewrite Ht, Mt.
    rewrite (receive_all env (this w) deliver_init_data
               (init_data_known w) (init_data_effect w) init_data_failure
               (deliver_init_data_known w) (deliver_init_data_unknown w)
               (comm_map (this w)) (completed env (moved env w))).
    - reflexivity.
    - now rewrite Ht, Mt.
    - exact Hd.
    - intros i Hi. apply completed_buffers; [exact Hd'|]. now rewrite Mt. }
  unfold exchangeLinkInitData.
  unfold bind at 1. unfold get at 1. cbv beta iota.
  unfold bind at 1. rewrite move_loop. cbv beta iota.
  fold (moved env w).
  unfold bind at 1. rewrite post_exchange_run. cbv beta iota.
  unfold bind at 1. rewrite wait_all_run. cbv beta iota.
  fold (completed env (moved env w)). rewrite Hloop, Hreq.
  destruct (first_bad (init_data_known w) (received env w)); reflexivity.
Qed.

Lemma init_data_sends_app a b :
  init_data_sends (a ++ b) = init_data_sends a ++ init_data_sends b.
Proof. unfold init_data_sends. apply flat_map_app. Qed.

Lemma init_data_sends_dispatch w l :
  init_data_sends (map (init_data_effect w) l) = map (init_data_call w) l.
Proof.
  induction l as [|e l IH]; [reflexivity|].
  change (init_data_sends (map (init_data_effect w) (e :: l)))
    with (init_data_call w e :: init_data_sends (map (init_data_effect w) l)).
  now rewrite IH.
Qed.

Lemma init_data_sends_posted w : init_data_sends (posted w) = [].
Proof.
  unfold posted. induction (comm_map (this w)) as [|[rank [q v]] rest IH];
    [reflexivity|exact IH].
Qed.

Lemma init_data_sends_moves (links : list (LinkId_t * LinkPtr)) :
  init_data_sends
    (map (fun i : LinkId_t * LinkPtr => LinkMoveInitDataToRecvQueue (snd i)) links)
  = [].
Proof. induction links as [|i links IH]; [reflexivity|exact IH]. Qed.

Lemma init_data_sends_receive_trace env w ranks :
  init_data_sends (receive_trace env (init_data_known w) (init_data_effect w)
                                 init_data_failure ranks)
  = map (init_data_call w)
        (take_while (init_data_known w)
           (flat_map (fun i : Z * (addr * addr) => incoming env (fst i)) ranks)).
Proof.
  induction ranks as [|[rank [q v]] rest IH]; [reflexivity|].
  cbn [receive_trace flat_map fst]. rewrite take_while_app.
  change (init_data_sends (QueueClear q :: ?t)) with (init_data_sends t).
  rewrite init_data_sends_app, init_data_sends_dispatch.
  destruct (first_bad (init_data_known w) (incoming env rank)) as [e|] eqn:E.
  - unfold init_data_failure. destruct (kind e); simpl; now rewrite app_nil_r.
  - change (init_data_sends (VectorClear v :: ?t)) with (init_data_sends t).
    rewrite IH, (take_while_all _ _ E), map_app. reflexivity.
Qed.

Lemma init_data_sends_exchange env w :
  buffers_distinct w ->
  init_data_sends (trace_of (exchangeLinkInitData env w))
  = map (init_data_call w) (take_while (init_data_known w) (received env w)).
Proof.
  intros Hd. rewrite (exchangeLinkInitData_run env w Hd). unfold trace_of.
  cbn [fst]. rewrite init_data_sends_app, init_data_sends_moves.
  rewrite init_data_sends_app, init_data_sends_posted.
  change (init_data_sends (WaitAll ?r :: ?t)) with (init_data_sends t).
  rewrite init_data_sends_receive_trace. reflexivity.
Qed.

(** C7.  During [exchangeLinkInitData], with every received item a
    LinkInitData: when every item's link id is in the link map, each item
    is handed to [sendInitData] of the link found for its id, in the order
    received, with its link id reset to -1 and nothing else changed, and
    the exchange completes; at the first item whose id is not in the map
    the exchange prints "Link not found in map!" and aborts, the items
    before it having been handed over and no other. *)
Theorem exchangeLinkInitData_resets_link_id env w :
  buffers_distinct w ->
  (forall j, In j (received env w) -> kind j = LinkInitDataKind) ->
  ((forall j, In j (received env w) ->
              StdMap.find (link_id j) (link_map (this w)) <> None) ->
   (exists w', outcome_of (exchangeLinkInitData env w) = Ok tt w')
   /\ init_data_sends (trace_of (exchangeLinkInitData env w))
      = map (init_data_call w) (received env w)
   /\ forall j, In j (received env w) ->
        StdMap.find (link_id j) (link_map (this w))
        = Some (fst (init_data_call w j))
        /\ snd (init_data_call w j) = setLinkId (-1) j
        /\ link_id (snd (init_data_call w j)) = -1)
  /\ (forall pre j post,
         received env w = pre ++ j :: post ->
         (forall e, In e pre -> StdMap.find (link_id e) (link_map (this w)) <> None) ->
         StdMap.find (link_id j) (link_map (this w)) = None ->
         outcome_of (exchangeLinkInitData env w) = Stopped Aborted
         /\ (exists t, trace_of (exchangeLinkInitData env w)
                       = t ++ [Printf "Link not found in map!\n" []])
         /\ init_data_sends (trace_of (exchangeLinkInitData env w))
            = map (init_data_call w) pre).
Proof.
  intros Hd Hkind.
  assert (Hknown : forall j, In j (received env w) ->
            StdMap.find (link_id j) (link_map (this w)) <> None ->
            init_data_known w j = true).
  { intros j Hin Hf. unfold init_data_known, link_known.
    rewrite (Hkind j Hin).
    destruct (StdMap.find (link_id j) (link_map (this w))); [reflexivity|congruence]. }
  split.
  - intros Hall.
    assert (Hfb : first_bad (init_data_known w) (received env w) = None).
    { apply first_bad_None. intros j Hin. apply Hknown; auto. }
    split; [|split].
    + rewrite (exchangeLinkInitData_run env w Hd), Hfb.
      unfold outcome_of. cbn [snd]. eauto.
    + rewrite (init_data_sends_exchange env w Hd), (take_while_all _ _ Hfb).
      reflexivity.
    + intros j Hin. specialize (Hall j Hin).
      unfold init_data_call, StdMap.get. cbn [fst snd].
      destruct (StdMap.find (link_id j) (link_map (this w))); [auto|congruence].
  - intros pre j post Hsplit Hpre Hj.
    assert (Hbad : init_data_known w j = false).
    { unfold init_data_known, link_known. rewrite Hj. now destruct (kind j). }
    assert (Hpre' : forall e, In e pre -> init_data_known w e = true).
    { intros e Hin. apply Hknown; auto. rewrite Hsplit. apply in_or_app. now left. }
    destruct (split_at_first_bad (init_data_known w) pre j post Hpre' Hbad)
      as [Hfb Htw].
    rewrite <- Hsplit in Hfb, Htw.
    assert (Hfail : init_data_failure j = (link_not_found, Aborted)).
    { unfold init_data_failure. rewrite (Hkind j); [reflexivity|].
      rewrite Hsplit. apply in_or_app. right. now left. }
    split; [|split].
    + rewrite (exchangeLinkInitData_run env w Hd), Hfb, Hfail. reflexivity.
    + rewrite (exchangeLinkInitData_run env w Hd). unfold trace_of. cbn [fst].
      destruct (receive_trace_stops env (init_data_known w) (init_data_effect w)
                  init_data_failure (comm_map (this w)) j Hfb) as [t Ht].
      rewrite Ht, Hfail. cbn [fst].
      eexists. rewrite !app_assoc. rewrite app_comm_cons, !app_assoc.
      reflexivity.
    + rewrite (init_data_sends_exchange env w Hd), Htw. reflexivity.
Qed.

(** ** serialize *)

(** Binding a key above every bound key appends the binding. *)
Lemma insert_pair_above {V} k (v : V) m :
  Forall (fun i => fst i < k) m -> StdMap_insert_pair k v m = m ++ [(k, v)].
Proof.
  unfold StdMap_insert_pair. intros H.
  assert (Hf : StdMap.find k m = None).
  { induction H as [|[k' v'] r Hk _ IH]; simpl in *; [reflexivity|].
    destruct (Z.eqb_spec k k'); [lia|exact IH]. }
  rewrite Hf. clear Hf.
  induction H as [|[k' v'] r Hk _ IH]; simpl in *; [reflexivity|].
  destruct (Z.ltb_spec k k'); [lia|].
  destruct (Z.eqb_spec k k'); [lia|]. now rewrite IH.
Qed.

(** One round of the loading loop. *)
Lemma load_rank_run i w :
  exists w',
    load_rank i w = ([NewSyncQueue (next_addr w); NewVector (next_addr w + 1)], Ok tt w')
    /\ this w' = set_comm_map (StdMap_insert_pair (fst i) (next_addr w, next_addr w + 1)
                                 (comm_map (this w))) (this w)
    /\ queues w' = StdMap.insert (next_addr w) (fst (snd i))
                     (StdMap.insert (next_addr w) [] (queues w))
    /\ vectors w' = StdMap.insert (next_addr w + 1) (snd (snd i))
                      (StdMap.insert (next_addr w + 1) [] (vectors w))
    /\ next_addr w' = next_addr w + 2
    /\ sim w' = sim w.
Proof.
  eexists. split; [reflexivity|]. cbn.
  repeat split. lia.
Qed.

Lemma loaded_ranks_fresh l : forall n,
  Forall (fun i : Z * (addr * addr) => n <= fst (snd i) /\ n <= snd (snd i))
         (loaded_ranks n l).
Proof.
  induction l as [|i r IH]; intros n; simpl; constructor.
  - simpl. lia.
  - apply Forall_impl with (2 := IH (n + 2)). simpl. intros a. lia.
Qed.

Lemma loaded_ranks_keys l n : map fst (loaded_ranks n l) = map fst l.
Proof.
  revert n. induction l as [|i r IH]; intros n; simpl; [reflexivity|].
  now rewrite IH.
Qed.

(** The loading loop: it binds each archived rank, in order, to a new
    SyncQueue and a new buffer holding the archived contents, writes
    nothing to an archive, and touches neither the objects already there
    nor any other member of the Sync. *)
Lemma load_ranks_run l : forall w,
  StronglySorted Z.lt (map fst l) ->
  Forall (fun i : Z * (addr * addr) => forall j, In j l -> fst i < fst j)
         (comm_map (this w)) ->
  exists tr w',
    forM_ l load_rank w = (tr, Ok tt w')
    /\ archive_of tr = []
    /\ comm_map (this w') = comm_map (this w) ++ loaded_ranks (next_addr w) l
    /\ period (this w') = period (this w)
    /\ link_map (this w') = link_map (this w)
    /\ comm (this w') = comm (this w)
    /\ base (this w') = base (this w)
    /\ sim w' = sim w
    /\ next_addr w <= next_addr w'
    /\ (forall a, a < next_addr w ->
                  StdMap.get a (queues w') [] = StdMap.get a (queues w) []
                  /\ StdMap.get a (vectors w') [] = StdMap.get a (vectors w) [])
    /\ map (fun i : Z * (addr * addr) =>
              (fst i, (StdMap.get (fst (snd i)) (queues w') [],
                       StdMap.get (snd (snd i)) (vectors w') [])))
           (loaded_ranks (next_addr w) l) = l.
Proof.
  induction l as [|i r IH]; intros w Hs Hb.
  - exists [], w. simpl. rewrite app_nil_r. repeat split; auto; lia.
  - destruct (load_rank_run i w) as (w1 & Hrun & Hthis & Hq & Hv & Hn & Hsim).
    simpl in Hs. apply StronglySorted_inv in Hs. destruct Hs as [Hs Hi].
    assert (Hcm : comm_map (this w1)
                  = comm_map (this w) ++ [(fst i, (next_addr w, next_addr w + 1))]).
    { rewrite Hthis. simpl. apply insert_pair_above.
      apply Forall_impl with (2 := Hb). intros a Ha. apply Ha. now left. }
    destruct (IH w1 Hs) as (tr & w' & Hloop & Har & Hcm' & Hp & Hl & Hc & Hba
                            & Hsim' & Hle & Hframe & Hcont).
    { rewrite Hcm. apply Forall_app. split.
      - apply Forall_impl with (2 := Hb). intros a Ha j Hj. apply Ha. now right.
      - constructor; [|constructor]. simpl. intros j Hj.
        rewrite Forall_forall in Hi. apply Hi. now apply in_map. }
    exists ([NewSyncQueue (next_addr w); NewVector (next_addr w + 1)] ++ tr), w'.
    split.
    { cbn [forM_]. rewrite (bind_Ok _ _ _ _ _ _ Hrun), Hloop. reflexivity. }
    split; [exact Har|].
    split.
    { rewrite Hcm', Hcm, Hn, <- app_assoc. reflexivity. }
    rewrite Hp, Hl, Hc, Hba, Hsim', Hthis, Hsim.
    repeat (split; [reflexivity|]).
    split; [lia|].
    split.
    { intros a Ha. destruct (Hframe a ltac:(lia)) as [Fq Fv].
      rewrite Fq, Fv, Hq, Hv.
      rewrite !get_insert_neq by lia. split; reflexivity. }
    cbn [loaded_ranks map fst snd]. rewrite Hn in Hcont. rewrite Hcont.
    destruct (Hframe (next_addr w) ltac:(lia)) as [Fq _].
    destruct (Hframe (next_addr w + 1) ltac:(lia)) as [_ Fv].
    rewrite Fq, Fv, Hq, Hv, !get_insert_eq.
    destruct i as [rank [qc vc]]. reflexivity.
Qed.

Lemma bind_run {A B} (m : M A) (f : A -> M B) w t a w' t2 r :
  m w = (t, Ok a w') -> f a w' = (t2, r) -> bind m f w = (t ++ t2, r).
Proof. unfold bind. intros -> ->. reflexivity. Qed.

(** Loading the link map binds the archived links, in order. *)
Lemma load_links_run (l : list (LinkId_t * LinkPtr)) : forall w,
  StronglySorted Z.lt (map fst l) ->
  Forall (fun i : LinkId_t * LinkPtr => forall j, In j l -> fst i < fst j)
         (link_map (this w)) ->
  forM_ l (fun i => modify_this (fun s =>
             set_link_map (StdMap_insert_pair (fst i) (snd i) (link_map s)) s)) w
  = ([], Ok tt (set_this (set_link_map (link_map (this w) ++ l) (this w)) w)).
Proof.
  induction l as [|i r IH]; intros w Hs Hb.
  - simpl. rewrite app_nil_r. destruct w as [[p c l cm b] q v n s]. reflexivity.
  - simpl in Hs. apply StronglySorted_inv in Hs. destruct Hs as [Hs Hi].
    cbn [forM_]. eapply bind_run with (t := []); [reflexivity|].
    rewrite IH; [|exact Hs|].
    + cbn. rewrite insert_pair_above.
      * destruct i. cbn. now rewrite <- app_assoc.
      * apply Forall_impl with (2 := Hb). intros a Ha. apply Ha. now left.
    + cbn. rewrite insert_pair_above.
      * apply Forall_app. split.
        -- apply Forall_impl with (2 := Hb). intros a Ha j Hj. apply Ha. now right.
        -- constructor; [|constructor]. simpl. intros j Hj.
           rewrite Forall_forall in Hi. apply Hi. now apply in_map.
      * apply Forall_impl with (2 := Hb). intros a Ha. apply Ha. now left.
Qed.

(** C8.  [Sync::serialize] names the Action base, [period], [comm_map] and
    [link_map], and not [comm].
    Saving: the output archive receives exactly these four items, in this
    order, the rank map as each rank with the contents of the SyncQueue
    and of the buffer its pointers lead to; what is written and printed is
    the same whatever [comm] holds, and the Sync is left as it was.
    Restoring: loading what was saved from [w] into any Sync [w0] returns,
    writes nothing, and leaves [comm] as [w0] had it, so the communicator
    of a restored Sync is the one it was constructed with, never the saved
    one; the period, the Action base and the link map become the saved
    ones; every saved rank, in the same order, is bound to a SyncQueue
    and a buffer that did not exist in [w0] and hold the saved contents;
    saving the restored Sync archives what was archived from [w]. *)
Theorem serialize_omits_comm :
  forall (w w0 : World) (c : Communicator),
    StdMap.ordered (comm_map (this w)) ->
    StdMap.ordered (link_map (this w)) ->
    trace_of (serialize oarchive w)
    = [Printf "begin Sync::serialize\n" [];
       Archive "Action" (ArBaseAction (base (this w)));
       Printf "  - Sync::period\n" [];
       Archive "period" (ArPeriod (period (this w)));
       Printf "  - Sync::comm_map (%d)\n" [Z.of_nat (List.length (comm_map (this w)))];
       Archive "comm_map"
         (ArCommMap
            (map (fun i : Z * (addr * addr) =>
                    (fst i, (StdMap.get (fst (snd i)) (queues w) [],
                             StdMap.get (snd (snd i)) (vectors w) [])))
                 (comm_map (this w))));
       Printf "  - Sync::link_map (%d)\n" [Z.of_nat (List.length (link_map (this w)))];
       Archive "link_map" (ArLinkMap (link_map (this w)));
       Printf "end Sync::serialize\n" []]
    /\ outcome_of (serialize oarchive w) = Ok tt w
    /\ trace_of (serialize oarchive (set_this (set_comm c (this w)) w))
       = trace_of (serialize oarchive w)
    /\ exists input w',
        image_of (archive_of (trace_of (serialize oarchive w))) = Some input
        /\ outcome_of (serialize (iarchive input) w0) = Ok tt w'
        /\ archive_of (trace_of (serialize (iarchive input) w0)) = []
        /\ comm (this w') = comm (this w0)
        /\ period (this w') = period (this w)
        /\ base (this w') = base (this w)
        /\ link_map (this w') = link_map (this w)
        /\ StdMap.keys (comm_map (this w')) = StdMap.keys (comm_map (this w))
        /\ rank_contents w' = rank_contents w
        /\ Forall (fun i : Z * (addr * addr) =>
                     next_addr w0 <= fst (snd i) /\ next_addr w0 <= snd (snd i))
                  (comm_map (this w'))
        /\ archive_of (trace_of (serialize oarchive w'))
           = archive_of (trace_of (serialize oarchive w)).
Proof.
  intros w w0 c Hcm Hlm.
  assert (Hpay : forall x, comm_map_contents x = rank_contents x).
  { intros x. unfold comm_map_contents, rank_contents. apply map_ext.
    intros [rank [q v]]. reflexivity. }
  split.
  { unfold trace_of. cbn. fold (comm_map_contents w).
    unfold StdMap.size. rewrite Hpay. reflexivity. }
  split; [reflexivity|]. split; [reflexivity|].
  set (input := mkSyncImage (base (this w)) (period (this w))
                            (rank_contents w) (link_map (this w))).
  set (wa := set_this (set_base (image_Action input) (this w0)) w0).
  set (wb := set_this (set_period (image_period input) (this wa)) wa).
  set (wc := set_this (set_comm_map StdMap.empty (this wb)) wb).
  assert (Hkeys : map fst (rank_contents w) = StdMap.keys (comm_map (this w))).
  { unfold rank_contents, StdMap.keys. rewrite map_map. reflexivity. }
  destruct (load_ranks_run (rank_contents w) wc)
    as (tr & wd & Hloop & Har & Hcm' & Hp & Hl & Hc & Hba & Hsim & Hle & Hframe & Hcont).
  { rewrite Hkeys. exact Hcm. }
  { constructor. }
  set (we := set_this (set_link_map StdMap.empty (this wd)) wd).
  pose proof (load_links_run (link_map (this w)) we Hlm (Forall_nil _)) as Hlinks.
  set (wf' := set_this (set_link_map (link_map (this we) ++ link_map (this w)) (this we)) we)
    in Hlinks.
  assert (Hrun : serialize (iarchive input) w0
                 = ([Printf "begin Sync::serialize\n" [];
                     Printf "  - Sync::period\n" [];
                     Printf "  - Sync::comm_map (%d)\n" [StdMap.size (comm_map (this w0))]]
                      ++ tr
                      ++ [Printf "  - Sync::link_map (%d)\n" [StdMap.size (link_map (this wd))];
                          Printf "end Sync::serialize\n" []],
                    Ok tt wf')).
  { unfold serialize.
    eapply bind_run with (t := [Printf _ _]); [reflexivity|].
    eapply bind_run with (t := []) (w' := wa); [reflexivity|].
    eapply bind_run with (t := [Printf _ _]); [reflexivity|].
    eapply bind_run with (t := []) (w' := wb); [reflexivity|].
    eapply bind_run with (t := []); [reflexivity|].
    eapply bind_run with (t := [Printf _ _]); [reflexivity|].
    eapply bind_run with (t := tr) (w' := wd).
    { unfold ar_comm_map. eapply bind_run with (t := []) (w' := wc); [reflexivity|].
      exact Hloop. }
    eapply bind_run with (t := []); [reflexivity|].
    eapply bind_run with (t := [Printf _ _]); [reflexivity|].
    eapply bind_run with (t := []) (w' := wf').
    { unfold ar_link_map. eapply bind_run with (t := []) (w' := we); [reflexivity|].
      exact Hlinks. }
    reflexivity. }
  assert (Hcmf : comm_map (this wf') = loaded_ranks (next_addr w0) (rank_contents w)).
  { change (comm_map (this wf')) with (comm_map (this wd)). rewrite Hcm'. reflexivity. }
  assert (Hrc : rank_contents wf' = rank_contents w).
  { unfold rank_contents at 1. rewrite Hcmf. exact Hcont. }
  exists input, wf'.
  split.
  { unfold trace_of. cbn. fold (comm_map_contents w). rewrite Hpay. reflexivity. }
  split; [rewrite Hrun; reflexivity|].
  split.
  { rewrite Hrun. unfold trace_of, archive_of. cbn [fst].
    rewrite !flat_map_app. fold (archive_of tr). rewrite Har. reflexivity. }
  split; [exact Hc|]. split; [exact Hp|]. split; [exact Hba|].
  split; [reflexivity|].
  split.
  { rewrite Hcmf. unfold StdMap.keys. rewrite loaded_ranks_keys. exact Hkeys. }
  split; [exact Hrc|].
  split.
  { rewrite Hcmf. apply loaded_ranks_fresh. }
  assert (Hsave : forall x,
             archive_of (trace_of (serialize oarchive x))
             = [("Action"%string, ArBaseAction (base (this x)));
                ("period"%string, ArPeriod (period (this x)));
                ("comm_map"%string, ArCommMap (rank_contents x));
                ("link_map"%string, ArLinkMap (link_map (this x)))]).
  { intros x. rewrite <- Hpay. reflexivity. }
  rewrite !Hsave, Hrc.
  rewrite (Hba : base (this wf') = base (this w)).
  rewrite (Hp : period (this wf') = period (this w)).
  reflexivity.
Qed.

(** The Sync of [checkpointed], saved while holding communicator 7, is
    restored into [before_sync]: the restored Sync holds the default
    communicator, and rank 0 is bound to a new SyncQueue holding the
    Activity that was buffered for it. *)
Lemma serialize_omits_comm_witness :
  StdMap.ordered (comm_map (this checkpointed))
  /\ StdMap.ordered (link_map (this checkpointed))
  /\ comm (this checkpointed) = MPI_Comm 7
  /\ exists input w',
      image_of (archive_of (trace_of (serialize oarchive checkpointed))) = Some input
      /\ outcome_of (serialize (iarchive input) before_sync) = Ok tt w'
      /\ comm (this w') = MPI_COMM_WORLD
      /\ rank_contents w' = [(0, ([event_from_0], [])); (1, ([], [event_from_1]))].
Proof.
  assert (Hc : StdMap.ordered (comm_map (this checkpointed))).
  { unfold StdMap.ordered. simpl. repeat constructor. }
  assert (Hl : StdMap.ordered (link_map (this checkpointed))).
  { unfold StdMap.ordered. simpl. repeat constructor. }
  split; [exact Hc|]. split; [exact Hl|]. split; [reflexivity|].
  destruct (serialize_omits_comm checkpointed before_sync MPI_COMM_WORLD Hc Hl)
    as (_ & _ & _ & input & w' & Hi & Ho & _ & Hcomm & _ & _ & _ & _ & Hrc & _).
  exists input, w'.
  split; [exact Hi|]. split; [exact Ho|]. split; [exact Hcomm|exact Hrc].
Defined.

(** ** The constructor *)

(** C10.  Constructing a Sync with period [p] at cycle [now] gives it
    priority 25 and inserts it, once, into the simulation's TimeVortex with
    delivery time [now + getFactor p] (as a [SimTime_t], so modulo 2^64):
    it is resident there with that time and that priority, and the clock
    has not moved.  Within range the first barrier is thus one full period
    after construction. *)
Theorem Sync_new_schedules_first_barrier :
  forall (action : Activity) (p : TimeConverter) (w : World),
    let now := currentSimCycle (sim w) in
    let r := Sync_new action p w in
    exists w' self,
      outcome_of r = Ok tt w'
      /\ base (this w') = self
      /\ priority self = 25
      /\ delivery_time self = wrap64 (now + getFactor p)
      /\ (0 <= now -> 0 <= getFactor p -> now + getFactor p < 2 ^ 64 ->
          delivery_time self = now + getFactor p)
      /\ trace_of r = [InsertActivity (wrap64 (now + getFactor p)) self]
      /\ timeVortex (sim w') = TimeVortex.insert self (timeVortex (sim w))
      /\ In self (TimeVortex.data (timeVortex (sim w')))
      /\ currentSimCycle (sim w') = now
      /\ period (this w') = p
      /\ comm_map (this w') = []
      /\ link_map (this w') = [].
Proof.
  intros action p w now r.
  eexists _, _. split; [reflexivity|]. cbn.
  split; [reflexivity|]. split; [reflexivity|]. split; [reflexivity|].
  split.
  { intros H1 H2 H3. unfold wrap64. apply Z.mod_small. subst now. lia. }
  split; [reflexivity|]. split; [reflexivity|]. split.
  { apply (multiset_insert_In less_time_priority). now left. }
  repeat split.
Qed.

(** ** The claims at concrete inputs *)

Ltac list_member H :=
  repeat (destruct H as [H|H]; [subst; try reflexivity; try discriminate|]);
  try contradiction.


Lemma buffers_distinct_two_peers : buffers_distinct two_peers.
Proof. unfold buffers_distinct. simpl. repeat constructor; simpl; intuition lia. Defined.

Lemma wf_before_sync : wf before_sync.
Proof.
  unfold wf, buffers_distinct, StdMap.ordered. simpl.
  repeat split; constructor.
Defined.



(** The same three events in a PollingLinkQueue come out in insertion
    order, priority 5 first: priority plays no part. *)
Lemma PollingLinkQueue_pop_by_delivery_time_witness :
  popped (drive PollingLinkQueue.new (map CallInsert scenario2 ++ repeat CallPop 3))
  = scenario2
  /\ forall t,
      filter (at_time t)
             (popped (drive PollingLinkQueue.new
                            (map CallInsert scenario2 ++ repeat CallPop 3)))
      = filter (at_time t) scenario2.
Proof.
  split; [reflexivity|].
  exact (proj2 (proj2 (proj2 PollingLinkQueue_pop_by_delivery_time scenario2))).
Defined.





(** An event for the unknown link 99, second in rank 0's vector: the event
    before it is delivered, then the barrier aborts. *)
Lemma execute_link_lookup_witness :
  outcome_of (execute env_stray two_peers) = Stopped Aborted
  /\ link_sends (trace_of (execute env_stray two_peers)) = [(200, 2, event_from_0)]
  /\ forall l d,
      ~ In (l, d, stray_event) (link_sends (trace_of (execute env_stray two_peers))).
Proof.
  destruct (proj1 (execute_link_lookup env_stray two_peers buffers_distinct_two_peers)
              [event_from_0] stray_event [event_from_1])
    as (Ho & _ & Hs & Hn).
  - reflexivity.
  - intros e Hin. simpl in Hin. list_member Hin.
  - reflexivity.
  - split; [exact Ho|]. split; [rewrite Hs; reflexivity|exact Hn].
Defined.

Lemma exchangeLinkInitData_resets_link_id_witness :
  init_data_sends (trace_of (exchangeLinkInitData env_init two_peers))
  = [(200, mkActivity 0 0 0 LinkInitDataKind (-1) 11);
     (100, mkActivity 0 0 1 LinkInitDataKind (-1) 12)].
Proof.
  assert (Hkind : forall j, In j (received env_init two_peers) ->
                            kind j = LinkInitDataKind).
  { intros j Hin. simpl in Hin. list_member Hin. }
  assert (Hall : forall j, In j (received env_init two_peers) ->
            StdMap.find (link_id j) (link_map (this two_peers)) <> None).
  { intros j Hin. simpl in Hin. list_member Hin. }
  destruct (proj1 (exchangeLinkInitData_resets_link_id env_init two_peers
                     buffers_distinct_two_peers Hkind) Hall) as (_ & Hs & _).
  rewrite Hs. reflexivity.
Defined.

(** Three calls on a fresh Sync, ranks 1, 0, 1: the first and the third
    return the same queue, the second another. *)
Lemma registerLink_one_queue_per_rank_witness :
  returned (registerLinks [(1, 7, 100); (0, 8, 200); (1, 9, 101)] before_sync)
  = Some [1; 3; 1]
  /\ exists tr qs w',
      registerLinks [(1, 7, 100); (0, 8, 200); (1, 9, 101)] before_sync
      = (tr, Ok qs w')
      /\ forall i j ci cj qi qj,
          nth_error [(1, 7, 100); (0, 8, 200); (1, 9, 101)] i = Some ci ->
          nth_error [(1, 7, 100); (0, 8, 200); (1, 9, 101)] j = Some cj ->
          nth_error qs i = Some qi -> nth_error qs j = Some qj ->
          (fst (fst ci) = fst (fst cj) <-> qi = qj).
Proof.
  split; [reflexivity|].
  exact (proj2 (proj2 registerLink_one_queue_per_rank)
               [(1, 7, 100); (0, 8, 200); (1, 9, 101)] before_sync wf_before_sync).
Defined.

(** A Sync of period 4 constructed at cycle 0 is first due at cycle 4. *)
Lemma Sync_new_schedules_first_barrier_witness :
  exists w' self,
    outcome_of (Sync_new barrier_action (mkTimeConverter 4) before_sync) = Ok tt w'
    /\ base (this w') = self /\ priority self = 25 /\ delivery_time self = 4
    /\ TimeVortex.data (timeVortex (sim w')) = [self].
Proof.
  destruct (Sync_new_schedules_first_barrier barrier_action (mkTimeConverter 4)
              before_sync)
    as (w' & self & Ho & Hb & Hp & _ & Hd & _ & Hv & _).
  exists w', self. split; [exact Ho|]. split; [exact Hb|]. split; [exact Hp|].
  split.
  - apply Hd; simpl; lia.
  - rewrite Hv. reflexivity.
Defined.

(* ===================================================================== *)
(** * Part III.  Further properties of the code                            *)
(* ===================================================================== *)

(** ** PollingLinkQueue: what goes in comes out *)



Lemma delete_loop (l : list Activity) : forall acc,
  fold_left (fun deleted it => deleted ++ [it]) l acc = acc ++ l.
Proof.
  induction l as [|x l IH]; intros acc; simpl.
  - now rewrite app_nil_r.
  - now rewrite IH, <- app_assoc.
Qed.

(** X4.  The queue owns its contents: when a PollingLinkQueue reached by
    any sequence of inserts and pops is destroyed, every Activity that was
    inserted has either been handed out by a pop or is deleted by the
    destructor, once; the Activities are deleted in queue order and the
    queue is left empty. *)
Theorem PollingLinkQueue_delete_owns :
  forall calls : list queue_call,
    let d := drive PollingLinkQueue.new calls in
    let gone := fst (PollingLinkQueue_delete (queue d)) in
    let q' := snd (PollingLinkQueue_delete (queue d)) in
    Permutation (inserted d) (popped d ++ gone)
    /\ gone = PollingLinkQueue.data (queue d)
    /\ StronglySorted (fun a b => delivery_time a <= delivery_time b) gone
    /\ size q' = 0
    /\ pop q' = (None, q').
Proof.
  intros calls d gone q'.
  destruct (driven_invariant PollingLinkQueue.data less_time
              less_time_irrefl less_time_trans
              PollingLinkQueue_insert_contents PollingLinkQueue_pop_contents
              PollingLinkQueue.new calls eq_refl) as [Hs Hp].
  fold d in Hs, Hp.
  assert (Hg : gone = PollingLinkQueue.data (queue d)).
  { subst gone. unfold PollingLinkQueue_delete. cbn [fst]. apply delete_loop. }
  rewrite Hg. split; [exact Hp|]. split; [reflexivity|]. split.
  - apply StronglySorted_impl with (2 := Hs).
    intros x y H. unfold less_time in H.
    destruct (Z.ltb_spec (delivery_time y) (delivery_time x)); [discriminate|lia].
  - split; reflexivity.
Qed.

(** ** registerLink: the link map *)

(** What one call does to the two maps. *)
Lemma registerLink_maps rank link_id link w :
  exists tr q w',
    registerLink rank link_id link w = (tr, Ok q w')
    /\ link_map (this w') = StdMap.insert link_id link (link_map (this w))
    /\ (comm_map (this w') = comm_map (this w)
        \/ exists v, StdMap.find rank (comm_map (this w)) = None
                     /\ comm_map (this w')
                        = StdMap.insert rank (q, v) (comm_map (this w))).
Proof.
  destruct (StdMap.find rank (comm_map (this w))) as [[q v]|] eqn:E.
  - eexists _, q, _. split; [now apply registerLink_again with (v := v)|].
    simpl. auto.
  - eexists _, _, _. split; [now apply registerLink_first|].
    simpl. split; [reflexivity|]. right. eauto.
Qed.

(** X5.  Registering a link id again replaces its link: after any sequence
    of [registerLink] calls the link map binds an id to the link of the
    last call that named it, and ids no call named keep the binding they
    had. *)
Theorem registerLink_last_binding_wins :
  forall (calls : list (Z * LinkId_t * LinkPtr)) (w : World) (id : LinkId_t),
  exists tr qs w',
    registerLinks calls w = (tr, Ok qs w')
    /\ StdMap.find id (link_map (this w'))
       = match last_binding id calls with
         | Some l => Some l
         | None => StdMap.find id (link_map (this w))
         end.
Proof.
  induction calls as [|[[rank link_id] link] rest IH]; intros w id.
  - exists [], [], w. split; reflexivity.
  - destruct (registerLink_maps rank link_id link w)
      as (tr1 & q & w1 & Hrun & Hlm & _).
    destruct (IH w1 id) as (tr2 & qs & w2 & Hruns & Hfind).
    exists (tr1 ++ tr2 ++ []), (q :: qs), w2. split.
    { simpl. unfold bind at 1. rewrite Hrun.
      unfold bind at 1. rewrite Hruns. reflexivity. }
    rewrite Hfind. simpl.
    destruct (last_binding id rest); [reflexivity|].
    rewrite Hlm.
    destruct (Z.eqb_spec id link_id) as [->|Hne].
    + apply find_insert_eq.
    + now apply find_insert_neq.
Qed.

(** ** ~Sync *)

Lemma ordered_In_find {V} (m : StdMap.t V) k v :
  StdMap.ordered m -> In (k, v) m -> StdMap.find k m = Some v.
Proof.
  unfold StdMap.ordered, StdMap.keys.
  induction m as [|[k' v'] r IH]; simpl; intros Hs Hin; [destruct Hin|].
  apply StronglySorted_inv in Hs. destruct Hs as [Hr Hk].
  destruct Hin as [Heq|Hin].
  - injection Heq as -> ->. now rewrite Z.eqb_refl.
  - destruct (Z.eqb_spec k k') as [->|Hne]; [|auto].
    rewrite Forall_forall in Hk.
    specialize (Hk k' (in_map fst _ _ Hin)). simpl in Hk. lia.
Qed.

(** Every rank the map binds after a sequence of calls was bound before
    or is bound to the queue one of the calls returned. *)
Lemma registerLinks_origin calls : forall w tr qs w',
  registerLinks calls w = (tr, Ok qs w') ->
  forall r q v,
    StdMap.find r (comm_map (this w')) = Some (q, v) ->
    StdMap.find r (comm_map (this w)) = Some (q, v) \/ In q qs.
Proof.
  induction calls as [|[[rank link_id] link] rest IH]; intros w tr qs w' Hrun r q v Hf.
  - simpl in Hrun. injection Hrun as _ <- <-. now left.
  - destruct (registerLink_maps rank link_id link w)
      as (tr1 & q1 & w1 & Hrun1 & _ & Hcm).
    simpl in Hrun. unfold bind at 1 in Hrun. rewrite Hrun1 in Hrun.
    unfold bind at 1 in Hrun.
    destruct (registerLinks rest w1) as [tr2 [qs2 w2|why]] eqn:Hrest;
      [|discriminate].
    simpl in Hrun. injection Hrun as _ <- <-.
    destruct (IH w1 tr2 qs2 w2 Hrest r q v Hf) as [Hin1|Hin].
    + destruct Hcm as [Hsame|(v1 & Hnone & Hins)].
      * left. now rewrite <- Hsame.
      * rewrite Hins in Hin1.
        destruct (Z.eq_dec r rank) as [->|Hne].
        -- rewrite find_insert_eq in Hin1. injection Hin1 as <- <-.
           right. now left.
        -- rewrite find_insert_neq in Hin1 by exact Hne. now left.
    + right. now right.
Qed.

Lemma deleted_queues_of_ranks (ranks : list (Z * (addr * addr))) (rest : list deleted) :
  deleted_queues
    (flat_map (fun i : Z * (addr * addr) =>
                 [DeletedSyncQueue (fst (snd i)); DeletedVector (snd (snd i))]) ranks
     ++ rest)
  = map (fun i : Z * (addr * addr) => fst (snd i)) ranks ++ deleted_queues rest.
Proof.
  induction ranks as [|i ranks IH]; [reflexivity|].
  simpl. f_equal. exact IH.
Qed.

Lemma deleted_vectors_of_ranks (ranks : list (Z * (addr * addr))) (rest : list deleted) :
  deleted_vectors
    (flat_map (fun i : Z * (addr * addr) =>
                 [DeletedSyncQueue (fst (snd i)); DeletedVector (snd (snd i))]) ranks
     ++ rest)
  = map (fun i : Z * (addr * addr) => snd (snd i)) ranks ++ deleted_vectors rest.
Proof.
  induction ranks as [|i ranks IH]; [reflexivity|].
  simpl. f_equal. exact IH.
Qed.

Lemma deleted_links_of_ranks (ranks : list (Z * (addr * addr))) (rest : list deleted) :
  deleted_links
    (flat_map (fun i : Z * (addr * addr) =>
                 [DeletedSyncQueue (fst (snd i)); DeletedVector (snd (snd i))]) ranks
     ++ rest)
  = deleted_links rest.
Proof. induction ranks as [|i ranks IH]; [reflexivity|exact IH]. Qed.

Lemma deleted_of_links (links : list (LinkId_t * LinkPtr)) :
  deleted_queues (map (fun i : LinkId_t * LinkPtr => DeletedLink (snd i)) links) = []
  /\ deleted_vectors (map (fun i : LinkId_t * LinkPtr => DeletedLink (snd i)) links) = []
  /\ deleted_links (map (fun i : LinkId_t * LinkPtr => DeletedLink (snd i)) links)
     = map snd links.
Proof.
  induction links as [|i links (H1 & H2 & H3)]; [repeat split|].
  simpl. repeat split; auto. now f_equal.
Qed.

Lemma delete_rank_frame (ranks : list (Z * (addr * addr))) : forall w,
  this (fold_left delete_rank ranks w) = this w
  /\ sim (fold_left delete_rank ranks w) = sim w.
Proof.
  induction ranks as [|i ranks IH]; intros w; simpl; [auto|].
  destruct (IH (delete_rank w i)) as [H1 H2]. rewrite H1, H2. auto.
Qed.

(** What the destructor deletes, read off its two loops. *)
Lemma Sync_delete_run w :
  let d := fst (Sync_delete w) in
  let w' := snd (Sync_delete w) in
  deleted_queues d = map (fun i : Z * (addr * addr) => fst (snd i)) (comm_map (this w))
  /\ deleted_vectors d = map (fun i : Z * (addr * addr) => snd (snd i)) (comm_map (this w))
  /\ deleted_links d = map snd (link_map (this w))
  /\ comm_map (this w') = []
  /\ link_map (this w') = []
  /\ sim w' = sim w.
Proof.
  unfold Sync_delete. cbv zeta. cbn [fst snd].
  destruct (delete_rank_frame (comm_map (this w)) w) as [Ht Hs].
  cbn [this set_this set_comm_map set_link_map link_map comm_map sim].
  rewrite Ht, Hs.
  destruct (deleted_of_links (link_map (this w))) as (H1 & H2 & H3).
  rewrite deleted_queues_of_ranks, deleted_vectors_of_ranks, deleted_links_of_ranks.
  rewrite H1, H2, H3, !app_nil_r. repeat split.
Qed.

(** Every queue a sequence of calls returns is bound in the rank map. *)
Lemma registerLinks_returned calls : forall w,
  wf w ->
  exists tr qs w',
    registerLinks calls w = (tr, Ok qs w')
    /\ wf w'
    /\ (forall r p, StdMap.find r (comm_map (this w)) = Some p ->
                    StdMap.find r (comm_map (this w')) = Some p)
    /\ forall q, In q qs ->
         exists r v, StdMap.find r (comm_map (this w')) = Some (q, v).
Proof.
  induction calls as [|[[rank link_id] link] rest IH]; intros w Hwf.
  - exists [], [], w. simpl.
    split; [reflexivity|]. split; [exact Hwf|]. split; [auto|].
    intros q [].
  - destruct (registerLink_runs rank link_id link w)
      as (tr1 & q1 & v1 & w1 & Hrun & Hq & _ & Hmono1 & Hwf1).
    destruct (IH w1 (Hwf1 Hwf)) as (tr2 & qs & w2 & Hruns & Hwf2 & Hmono2 & Hret).
    exists (tr1 ++ tr2 ++ []), (q1 :: qs), w2. split.
    { simpl. unfold bind at 1. rewrite Hrun.
      unfold bind at 1. rewrite Hruns. reflexivity. }
    split; [exact Hwf2|]. split; [auto|].
    intros q [<-|Hin]; [eauto|auto].
Qed.

(** X6.  A Sync deletes what it allocated, once.  Construct a Sync,
    register links through any sequence of calls, destroy it: the
    destructor deletes exactly the SyncQueues the [registerLink] calls
    returned, each once, and one receive buffer per SyncQueue, each once;
    it deletes one link per bound link id; and it leaves both maps empty. *)
Theorem Sync_delete_frees_each_queue_once :
  forall (action : Activity) (p : TimeConverter) (w0 : World)
         (calls : list (Z * LinkId_t * LinkPtr)),
  exists tr1 w1 tr2 qs w2,
    Sync_new action p w0 = (tr1, Ok tt w1)
    /\ registerLinks calls w1 = (tr2, Ok qs w2)
    /\ let d := fst (Sync_delete w2) in
       let w3 := snd (Sync_delete w2) in
       NoDup (deleted_queues d)
       /\ (forall q, In q (deleted_queues d) <-> In q qs)
       /\ NoDup (deleted_vectors d)
       /\ List.length (deleted_vectors d) = List.length (deleted_queues d)
       /\ deleted_links d = map snd (link_map (this w2))
       /\ comm_map (this w3) = []
       /\ link_map (this w3) = [].
Proof.
  intros action p w0 calls.
  assert (Hnew : exists tr1 w1,
             Sync_new action p w0 = (tr1, Ok tt w1) /\ wf w1
             /\ comm_map (this w1) = []).
  { eexists _, _. split; [reflexivity|]. split; [|reflexivity].
    unfold wf, buffers_distinct, StdMap.ordered. simpl.
    repeat split; constructor. }
  destruct Hnew as (tr1 & w1 & Hnew & Hwf & Hempty).
  destruct (registerLinks_returned calls w1 Hwf)
    as (tr2 & qs & w2 & Hrun & Hwf2 & _ & Hret).
  exists tr1, w1, tr2, qs, w2. split; [exact Hnew|]. split; [exact Hrun|].
  destruct (Sync_delete_run w2) as (Hq & Hv & Hl & Hc & Hm & _).
  cbv zeta. rewrite Hq, Hv, Hl, Hc, Hm.
  destruct Hwf2 as (Hndq & Hndv & _ & Hord).
  split; [exact Hndq|]. split; [|split; [exact Hndv|]].
  - intros q. split; intros Hin.
    + apply in_map_iff in Hin. destruct Hin as [[r [q' v]] [Heq Hin]].
      simpl in Heq. subst q'.
      pose proof (ordered_In_find _ _ _ Hord Hin) as Hf.
      destruct (registerLinks_origin calls w1 tr2 qs w2 Hrun r q v Hf) as [Hold|Hin'];
        [|exact Hin'].
      rewrite Hempty in Hold. discriminate.
    + destruct (Hret q Hin) as (r & v & Hf). apply find_In in Hf.
      apply in_map_iff. exists (r, (q, v)). auto.
  - rewrite !length_map. repeat split.
Qed.

(** ** execute: what it leaves alone, and barriers in a row *)




Lemma isend_values_app a b :
  isend_values (a ++ b) = isend_values a ++ isend_values b.
Proof. unfold isend_values. apply flat_map_app. Qed.

Lemma isend_ranks_app a b : isend_ranks (a ++ b) = isend_ranks a ++ isend_ranks b.
Proof. unfold isend_ranks. apply flat_map_app. Qed.

Lemma irecv_ranks_app a b : irecv_ranks (a ++ b) = irecv_ranks a ++ irecv_ranks b.
Proof. unfold irecv_ranks. apply flat_map_app. Qed.

Lemma posted_sends w :
  isend_values (posted w)
  = map (fun i : Z * (addr * addr) => StdMap.get (fst (snd i)) (queues w) [])
        (comm_map (this w))
  /\ isend_ranks (posted w) = StdMap.keys (comm_map (this w))
  /\ irecv_ranks (posted w) = StdMap.keys (comm_map (this w)).
Proof.
  unfold posted, StdMap.keys.
  induction (comm_map (this w)) as [|[rank [q v]] rest (H1 & H2 & H3)];
    [repeat split|].
  repeat split.
  - change (StdMap.get q (queues w) [] :: isend_values
              (flat_map (fun i : Z * (addr * addr) =>
                 let '(rank, (q, v)) := i in
                 [Isend (comm (this w)) rank 0 (StdMap.get q (queues w) []);
                  Irecv (comm (this w)) rank 0 v]) rest)
            = StdMap.get q (queues w) []
              :: map (fun i : Z * (addr * addr) =>
                        StdMap.get (fst (snd i)) (queues w) []) rest).
    now rewrite H1.
  - change (rank :: isend_ranks
              (flat_map (fun i : Z * (addr * addr) =>
                 let '(rank, (q, v)) := i in
                 [Isend (comm (this w)) rank 0 (StdMap.get q (queues w) []);
                  Irecv (comm (this w)) rank 0 v]) rest)
            = rank :: map fst rest).
    now rewrite H2.
  - change (rank :: irecv_ranks
              (flat_map (fun i : Z * (addr * addr) =>
                 let '(rank, (q, v)) := i in
                 [Isend (comm (this w)) rank 0 (StdMap.get q (queues w) []);
                  Irecv (comm (this w)) rank 0 v]) rest)
            = rank :: map fst rest).
    now rewrite H3.
Qed.

(** The closing loop of [execute] posts nothing. *)
Lemma receive_trace_posts_nothing env w ranks :
  isend_values (receive_trace env (link_known w) (send_effect w) execute_failure ranks) = []
  /\ isend_ranks (receive_trace env (link_known w) (send_effect w) execute_failure ranks) = []
  /\ irecv_ranks (receive_trace env (link_known w) (send_effect w) execute_failure ranks) = [].
Proof.
  assert (Hmap : forall l,
            isend_values (map (send_effect w) l) = []
            /\ isend_ranks (map (send_effect w) l) = []
            /\ irecv_ranks (map (send_effect w) l) = []).
  { induction l as [|e l IH]; [repeat split|exact IH]. }
  induction ranks as [|[rank [q v]] rest (H1 & H2 & H3)]; [repeat split|].
  cbn [receive_trace].
  change (isend_values (QueueClear q :: ?t)) with (isend_values t).
  change (isend_ranks (QueueClear q :: ?t)) with (isend_ranks t).
  change (irecv_ranks (QueueClear q :: ?t)) with (irecv_ranks t).
  rewrite isend_values_app, isend_ranks_app, irecv_ranks_app.
  destruct (Hmap (take_while (link_known w) (incoming env rank))) as (M1 & M2 & M3).
  rewrite M1, M2, M3.
  destruct (first_bad (link_known w) (incoming env rank)); [repeat split|].
  change (isend_values (VectorClear v :: ?t)) with (isend_values t).
  change (isend_ranks (VectorClear v :: ?t)) with (isend_ranks t).
  change (irecv_ranks (VectorClear v :: ?t)) with (irecv_ranks t).
  rewrite H1, H2, H3. repeat split.
Qed.

(** What a barrier posts, whether it completes or aborts. *)
Lemma execute_posts env w :
  buffers_distinct w ->
  isend_values (trace_of (execute env w))
  = map (fun i : Z * (addr * addr) => StdMap.get (fst (snd i)) (queues w) [])
        (comm_map (this w))
  /\ isend_ranks (trace_of (execute env w)) = StdMap.keys (comm_map (this w))
  /\ irecv_ranks (trace_of (execute env w)) = StdMap.keys (comm_map (this w)).
Proof.
  intros Hd. rewrite (execute_run env w Hd). unfold trace_of. cbn [fst].
  rewrite isend_values_app, isend_ranks_app, irecv_ranks_app.
  destruct (posted_sends w) as (P1 & P2 & P3). rewrite P1, P2, P3.
  change (isend_values (WaitAll ?r :: ?t)) with (isend_values t).
  change (isend_ranks (WaitAll ?r :: ?t)) with (isend_ranks t).
  change (irecv_ranks (WaitAll ?r :: ?t)) with (irecv_ranks t).
  rewrite isend_values_app, isend_ranks_app, irecv_ranks_app.
  destruct (receive_trace_posts_nothing env w (comm_map (this w))) as (R1 & R2 & R3).
  rewrite R1, R2, R3.
  destruct (first_bad (link_known w) (received env w)); simpl;
    rewrite !app_nil_r; repeat split.
Qed.

(** X8.  Nothing is sent twice.  After a barrier that completed, the next
    barrier - whatever the peers send then - posts one send per peer rank
    and every vector it sends is empty, unless a link has queued something
    in between. *)
Theorem execute_twice_sends_nothing env env' w :
  buffers_distinct w ->
  (forall ev, In ev (received env w) -> link_known w ev = true) ->
  exists w',
    outcome_of (execute env w) = Ok tt w'
    /\ isend_ranks (trace_of (execute env' w')) = StdMap.keys (comm_map (this w))
    /\ isend_values (trace_of (execute env' w'))
       = map (fun _ => []) (comm_map (this w)).
Proof.
  intros Hd Hall.
  pose proof (all_known_first_bad _ _ Hall) as Hfb.
  pose proof (execute_run env w Hd) as Hrun. rewrite Hfb in Hrun.
  exists (after_execute env w). split; [now rewrite Hrun|].
  assert (Hd' : buffers_distinct (after_execute env w)) by exact Hd.
  destruct (execute_posts env' (after_execute env w) Hd') as (V & R & _).
  split; [exact R|]. rewrite V.
  change (comm_map (this (after_execute env w))) with (comm_map (this w)).
  apply map_ext_in. intros i Hi.
  unfold after_execute. cbn [queues]. now apply cleared_queues.
Qed.

(** X9.  One send and one receive per peer, in rank order.  Whatever is
    received, and whether the barrier completes or aborts on an unknown
    link, [execute] posts exactly one [isend] to and one [irecv] from each
    registered peer rank, in strictly ascending rank order, each send
    carrying the contents of that rank's SyncQueue. *)
Theorem execute_one_send_per_rank env w :
  wf w ->
  isend_ranks (trace_of (execute env w)) = StdMap.keys (comm_map (this w))
  /\ irecv_ranks (trace_of (execute env w)) = StdMap.keys (comm_map (this w))
  /\ StronglySorted Z.lt (isend_ranks (trace_of (execute env w)))
  /\ NoDup (isend_ranks (trace_of (execute env w)))
  /\ isend_values (trace_of (execute env w))
     = map (fun i : Z * (addr * addr) => StdMap.get (fst (snd i)) (queues w) [])
           (comm_map (this w)).
Proof.
  intros (_ & Hd & _ & Hord).
  destruct (execute_posts env w Hd) as (V & R & C).
  rewrite R, C, V. repeat split; [exact Hord|].
  unfold StdMap.ordered in Hord. clear - Hord.
  induction Hord as [|k l Hs IH Hf]; constructor; auto.
  intros Hin. rewrite Forall_forall in Hf. specialize (Hf k Hin). lia.
Qed.

(** ** exchangeLinkInitData: what it leaves alone, and a wrong item *)


Lemma printed_app a b : printed (a ++ b) = printed a ++ printed b.
Proof. unfold printed. apply flat_map_app. Qed.

Lemma receive_trace_printed env ok out bad ranks :
  (forall e, printed [out e] = []) ->
  printed (receive_trace env ok out bad ranks)
  = match first_bad ok (flat_map (fun i : Z * (addr * addr) => incoming env (fst i))
                                 ranks) with
    | Some e => printed (fst (bad e))
    | None => []
    end.
Proof.
  intros Hout.
  assert (Hmap : forall l, printed (map out l) = []).
  { induction l as [|e l IH]; [reflexivity|].
    change (map out (e :: l)) with ([out e] ++ map out l).
    now rewrite printed_app, Hout, IH. }
  induction ranks as [|[rank [q v]] rest IH]; [reflexivity|].
  cbn [receive_trace flat_map fst]. rewrite first_bad_app.
  change (printed (QueueClear q :: ?t)) with (printed t).
  rewrite printed_app, Hmap.
  destruct (first_bad ok (incoming env rank)); [reflexivity|].
  change (printed (VectorClear v :: ?t)) with (printed t).
  exact IH.
Qed.

Lemma moves_quiet (links : list (LinkId_t * LinkPtr)) :
  isend_values
    (map (fun i : LinkId_t * LinkPtr => LinkMoveInitDataToRecvQueue (snd i)) links) = []
  /\ printed
       (map (fun i : LinkId_t * LinkPtr => LinkMoveInitDataToRecvQueue (snd i)) links) = [].
Proof. induction links as [|i links IH]; [split; reflexivity|exact IH]. Qed.

Lemma posted_prints_nothing w : printed (posted w) = [].
Proof.
  unfold posted. induction (comm_map (this w)) as [|[rank [q v]] rest IH];
    [reflexivity|exact IH].
Qed.


(** X11.  A received item that is not a LinkInitData stops the init-phase
    exchange on a null pointer: the [dynamic_cast] yields NULL and the code
    reads its link id without a check.  The items before it have been
    handed to their links, that item and the ones after it to none, and no
    diagnostic is printed. *)
Theorem exchangeLinkInitData_wrong_item env w :
  buffers_distinct w ->
  forall pre j post,
    received env w = pre ++ j :: post ->
    (forall e, In e pre -> init_data_known w e = true) ->
    kind j <> LinkInitDataKind ->
    outcome_of (exchangeLinkInitData env w) = Stopped NullDereference
    /\ init_data_sends (trace_of (exchangeLinkInitData env w))
       = map (init_data_call w) pre
    /\ printed (trace_of (exchangeLinkInitData env w)) = [].
Proof.
  intros Hd pre j post Hsplit Hpre Hkind.
  assert (Hbad : init_data_known w j = false).
  { unfold init_data_known. destruct (kind j); congruence. }
  assert (Hfail : init_data_failure j = ([], NullDereference)).
  { unfold init_data_failure. destruct (kind j); congruence. }
  destruct (split_at_first_bad (init_data_known w) pre j post Hpre Hbad) as [Hfb Htw].
  rewrite <- Hsplit in Hfb, Htw.
  split; [|split].
  - rewrite (exchangeLinkInitData_run env w Hd), Hfb, Hfail. reflexivity.
  - rewrite (init_data_sends_exchange env w Hd), Htw. reflexivity.
  - rewrite (exchangeLinkInitData_run env w Hd). unfold trace_of. cbn [fst].
    rewrite printed_app, (proj2 (moves_quiet _)).
    rewrite printed_app, posted_prints_nothing.
    change (printed (WaitAll ?r :: ?t)) with (printed t).
    rewrite receive_trace_printed by (intros e; reflexivity).
    fold (received env w). rewrite Hfb, Hfail. reflexivity.
Qed.

(** ** SimpleMem::Request *)

Lemma wrap64_add_l a b : wrap64 (wrap64 a + b) = wrap64 (a + b).
Proof. unfold wrap64. apply Zplus_mod_idemp_l. Qed.

Lemma construct_id c m : SimpleMem.id (fst (SimpleMem.construct c m)) = m
                         /\ snd (SimpleMem.construct c m) = wrap64 (m + 1).
Proof. destruct c; split; reflexivity. Qed.

(** The ids a run of constructions hands out, from the counter [m] on. *)
Lemma construct_all_ids cs : forall m,
  0 <= m < 2 ^ 64 ->
  map SimpleMem.id (fst (SimpleMem.construct_all cs m))
  = map (fun k => wrap64 (m + Z.of_nat k)) (seq 0 (List.length cs))
  /\ snd (SimpleMem.construct_all cs m) = wrap64 (m + Z.of_nat (List.length cs)).
Proof.
  induction cs as [|c cs IH]; intros m Hm.
  - simpl. split; [reflexivity|]. unfold wrap64.
    rewrite Z.add_0_r. symmetry. now apply Z.mod_small.
  - cbn [SimpleMem.construct_all].
    destruct (construct_id c m) as [Hid Hnext].
    destruct (SimpleMem.construct c m) as [r next]. cbn [fst snd] in Hid, Hnext.
    assert (Hn : 0 <= next < 2 ^ 64).
    { subst next. unfold wrap64. apply Z.mod_pos_bound. lia. }
    destruct (IH next Hn) as [Hids Hfinal].
    destruct (SimpleMem.construct_all cs next) as [rs final].
    cbn [fst snd] in *. split.
    + cbn [map List.length seq]. f_equal.
      * rewrite Hid. unfold wrap64. rewrite Z.add_0_r. symmetry.
        now apply Z.mod_small.
      * rewrite Hids, <- seq_shift, map_map. apply map_ext. intros k.
        subst next. rewrite wrap64_add_l. f_equal. lia.
    + rewrite Hfinal. subst next. rewrite wrap64_add_l. f_equal.
      cbn [List.length]. lia.
Qed.

Lemma wrap64_injective_on m j k :
  0 <= j < 2 ^ 64 -> 0 <= k < 2 ^ 64 ->
  wrap64 (m + j) = wrap64 (m + k) -> j = k.
Proof.
  unfold wrap64. intros Hj Hk H.
  pose proof (Z.div_mod (m + j) (2 ^ 64) ltac:(lia)) as Dj.
  pose proof (Z.div_mod (m + k) (2 ^ 64) ltac:(lia)) as Dk.
  rewrite H in Dj.
  assert (Hd : j - k = 2 ^ 64 * ((m + j) / 2 ^ 64 - (m + k) / 2 ^ 64)) by lia.
  assert (Hz : (m + j) / 2 ^ 64 - (m + k) / 2 ^ 64 = 0) by nia.
  lia.
Qed.

Lemma NoDup_map_injective_on {A B} (f : A -> B) (l : list A) :
  (forall x y, In x l -> In y l -> f x = f y -> x = y) ->
  NoDup l -> NoDup (map f l).
Proof.
  intros Hinj Hnd. induction Hnd as [|x l Hnotin Hnd IH]; simpl; constructor.
  - intros Hin. apply in_map_iff in Hin. destruct Hin as [y [Heq Hy]].
    apply Hnotin. rewrite (Hinj x y); auto; [now left|now right].
  - apply IH. intros a b Ha Hb. apply Hinj; now right.
Qed.

(** X12.  Request ids identify requests.  Along any run of Request
    constructions (either constructor), starting with the static counter at
    [m], the ids handed out are [m], [m+1], ... modulo 2^64 in construction
    order, the counter ends at [m] plus the number of Requests modulo 2^64,
    and as long as no more than 2^64 Requests are constructed no two of
    them share an id. *)
Theorem Request_ids_are_distinct :
  forall (cs : list SimpleMem.construction) (m : SimpleMem.id_t),
    0 <= m < 2 ^ 64 ->
    Z.of_nat (List.length cs) <= 2 ^ 64 ->
    let rs := fst (SimpleMem.construct_all cs m) in
    List.length rs = List.length cs
    /\ map SimpleMem.id rs
       = map (fun k => wrap64 (m + Z.of_nat k)) (seq 0 (List.length cs))
    /\ NoDup (map SimpleMem.id rs)
    /\ snd (SimpleMem.construct_all cs m) = wrap64 (m + Z.of_nat (List.length cs)).
Proof.
  intros cs m Hm Hlen rs.
  destruct (construct_all_ids cs m Hm) as [Hids Hfinal].
  fold rs in Hids.
  split.
  { rewrite <- (length_map SimpleMem.id rs), Hids, length_map. apply length_seq. }
  split; [exact Hids|]. split; [|exact Hfinal].
  rewrite Hids. apply NoDup_map_injective_on; [|apply seq_NoDup].
  intros j k Hj Hk Heq. apply in_seq in Hj. apply in_seq in Hk.
  apply Nat2Z.inj. apply (wrap64_injective_on m); [lia|lia|exact Heq].
Qed.

Lemma assign_at (pre : SimpleMem.dataVec) x y suf :
  SimpleMem.assign (List.length pre) x (pre ++ y :: suf) = pre ++ x :: suf.
Proof. induction pre as [|z pre IH]; simpl; [reflexivity|now rewrite IH]. Qed.

(** The copy loop overwrites the [todo] bytes from index [i] on. *)
Lemma copy_loop_run data_in todo : forall i pre suf,
  List.length pre = i -> List.length suf = todo ->
  SimpleMem.copy_loop data_in i todo (pre ++ suf) = pre ++ map data_in (seq i todo).
Proof.
  induction todo as [|todo IH]; intros i pre suf Hpre Hsuf.
  - destruct suf; [reflexivity|discriminate].
  - destruct suf as [|y suf]; [discriminate|].
    cbn [SimpleMem.copy_loop seq map]. rewrite <- Hpre at 2. rewrite assign_at.
    change (pre ++ data_in i :: suf) with (pre ++ [data_in i] ++ suf).
    rewrite app_assoc, IH.
    + now rewrite <- app_assoc.
    + rewrite length_app. simpl. lia.
    + simpl in Hsuf. lia.
Qed.

Lemma resize_length len v : List.length (SimpleMem.resize len v) = len.
Proof.
  unfold SimpleMem.resize. rewrite length_app, length_firstn, repeat_length. lia.
Qed.

(** X13.  [setPayload(ptr, len)] makes the payload exactly the [len] bytes
    the pointer leads to, whatever the payload was before (longer, shorter
    or empty), so it agrees with [setPayload] of the vector of those
    bytes; and neither overload touches any other field: in particular the
    Request's [size] is not updated to the payload's length. *)
Theorem setPayload_ptr_copies_len_bytes :
  forall (data_in : nat -> Byte.byte) (len : nat) (r : SimpleMem.Request),
    SimpleMem.data (SimpleMem.setPayload_ptr data_in len r)
    = map data_in (seq 0 len)
    /\ List.length (SimpleMem.data (SimpleMem.setPayload_ptr data_in len r)) = len
    /\ SimpleMem.setPayload_ptr data_in len r
       = SimpleMem.setPayload (map data_in (seq 0 len)) r
    /\ SimpleMem.size (SimpleMem.setPayload_ptr data_in len r) = SimpleMem.size r
    /\ SimpleMem.id (SimpleMem.setPayload_ptr data_in len r) = SimpleMem.id r
    /\ SimpleMem.cmd (SimpleMem.setPayload_ptr data_in len r) = SimpleMem.cmd r
    /\ SimpleMem.addr (SimpleMem.setPayload_ptr data_in len r) = SimpleMem.addr r
    /\ SimpleMem.flags (SimpleMem.setPayload_ptr data_in len r) = SimpleMem.flags r.
Proof.
  intros data_in len r.
  assert (H : SimpleMem.copy_loop data_in 0 len (SimpleMem.resize len (SimpleMem.data r))
              = map data_in (seq 0 len)).
  { apply (copy_loop_run data_in len 0 []); [reflexivity|apply resize_length]. }
  unfold SimpleMem.setPayload_ptr, SimpleMem.setPayload. cbn [SimpleMem.data].
  rewrite H. split; [reflexivity|].
  split; [now rewrite length_map, length_seq|]. repeat split.
Qed.

(** ** execute with no peer *)

(** X14.  A Sync with no registered peer still runs its barrier: whatever
    the environment, [execute] posts nothing, waits on an empty set of
    requests, dispatches nothing, never aborts, and re-inserts the Sync at
    current cycle + period. *)
Theorem execute_without_peers env w :
  comm_map (this w) = [] ->
  trace_of (execute env w)
  = [WaitAll []; InsertActivity (next_barrier w) (rescheduled w)]
  /\ outcome_of (execute env w) = Ok tt (after_execute env w)
  /\ queues (after_execute env w) = queues w
  /\ vectors (after_execute env w) = vectors w
  /\ timeVortex (sim (after_execute env w))
     = TimeVortex.insert (rescheduled w) (timeVortex (sim w)).
Proof.
  intros Hnone.
  assert (Hd : buffers_distinct w).
  { unfold buffers_distinct. rewrite Hnone. constructor. }
  rewrite (execute_run env w Hd).
  unfold received, posted, requests_of, after_execute, completed, cleared, requests_of.
  rewrite Hnone. repeat split.
Qed.

(** ** The further properties at concrete inputs *)

Lemma buffers_distinct_two_peers_busy : buffers_distinct two_peers_busy.
Proof. unfold buffers_distinct. simpl. repeat constructor; simpl; intuition lia. Defined.

Lemma wf_two_peers_busy : wf two_peers_busy.
Proof.
  unfold wf, buffers_distinct, StdMap.ordered. simpl.
  repeat split; repeat constructor; simpl; intuition lia.
Defined.

Lemma all_known_two_peers_busy :
  forall ev, In ev (received env_both two_peers_busy) ->
             link_known two_peers_busy ev = true.
Proof. intros ev Hin. simpl in Hin. list_member Hin. Defined.


(** The first barrier sends the queued event to rank 0; the second sends
    two empty vectors. *)
Lemma execute_twice_sends_nothing_witness :
  isend_values (trace_of (execute env_both two_peers_busy)) = [[outbound]; []]
  /\ exists w',
      outcome_of (execute env_both two_peers_busy) = Ok tt w'
      /\ isend_values (trace_of (execute env_late w')) = [[]; []].
Proof.
  split; [reflexivity|].
  destruct (execute_twice_sends_nothing env_both env_late two_peers_busy
              buffers_distinct_two_peers_busy all_known_two_peers_busy)
    as (w' & Ho & _ & Hv).
  exists w'. split; [exact Ho|exact Hv].
Defined.

(** With an unknown link in rank 0's vector the barrier aborts, and has
    still posted one send to rank 0 and one to rank 1. *)
Lemma execute_one_send_per_rank_witness :
  outcome_of (execute env_stray two_peers_busy) = Stopped Aborted
  /\ isend_ranks (trace_of (execute env_stray two_peers_busy)) = [0; 1]
  /\ irecv_ranks (trace_of (execute env_stray two_peers_busy)) = [0; 1].
Proof.
  split; [reflexivity|].
  destruct (execute_one_send_per_rank env_stray two_peers_busy wf_two_peers_busy)
    as (Hs & Hr & _).
  split; [exact Hs|exact Hr].
Defined.


(** An ordinary event after rank 0's init item: the item is handed over,
    then the exchange stops on the null pointer. *)
Lemma exchangeLinkInitData_wrong_item_witness :
  outcome_of (exchangeLinkInitData env_init_wrong two_peers) = Stopped NullDereference
  /\ init_data_sends (trace_of (exchangeLinkInitData env_init_wrong two_peers))
     = [(200, mkActivity 0 0 0 LinkInitDataKind (-1) 11)]
  /\ printed (trace_of (exchangeLinkInitData env_init_wrong two_peers)) = [].
Proof.
  destruct (exchangeLinkInitData_wrong_item env_init_wrong two_peers
              buffers_distinct_two_peers [init_from_0] event_from_0 [init_from_1])
    as (Ho & Hs & Hp).
  - reflexivity.
  - intros e Hin. simpl in Hin. list_member Hin.
  - discriminate.
  - split; [exact Ho|]. split; [rewrite Hs; reflexivity|exact Hp].
Defined.

(** Two constructions with the counter at its last value: the ids are
    2^64 - 1 and 0, and the counter ends at 1. *)
Lemma Request_ids_are_distinct_witness :
  map SimpleMem.id
      (fst (SimpleMem.construct_all
              [SimpleMem.WithoutData SimpleMem.Read 0 8 0;
               SimpleMem.WithData SimpleMem.Write 8 1 [Byte.x01] 0]
              (2 ^ 64 - 1)))
  = [2 ^ 64 - 1; 0]
  /\ NoDup (map SimpleMem.id
              (fst (SimpleMem.construct_all
                      [SimpleMem.WithoutData SimpleMem.Read 0 8 0;
                       SimpleMem.WithData SimpleMem.Write 8 1 [Byte.x01] 0]
                      (2 ^ 64 - 1))))
  /\ snd (SimpleMem.construct_all
            [SimpleMem.WithoutData SimpleMem.Read 0 8 0;
             SimpleMem.WithData SimpleMem.Write 8 1 [Byte.x01] 0]
            (2 ^ 64 - 1)) = 1.
Proof.
  destruct (Request_ids_are_distinct
              [SimpleMem.WithoutData SimpleMem.Read 0 8 0;
               SimpleMem.WithData SimpleMem.Write 8 1 [Byte.x01] 0]
              (2 ^ 64 - 1)) as (_ & _ & Hnd & _).
  - lia.
  - simpl. lia.
  - split; [reflexivity|]. split; [exact Hnd|reflexivity].
Defined.

(** A Sync with no link registered, at a barrier. *)
Lemma execute_without_peers_witness :
  trace_of (execute env_both before_sync)
  = [WaitAll []; InsertActivity 0 (mkActivity 0 25 0 ActionKind 0 0)]
  /\ outcome_of (execute env_both before_sync)
     = Ok tt (after_execute env_both before_sync).
Proof.
  destruct (execute_without_peers env_both before_sync eq_refl) as (Ht & Ho & _).
  split; [rewrite Ht; reflexivity|exact Ho].
Defined.
